(** * random_circles_webGL: the WebGL helper layer and the circle generator

    A shallow embedding of [scripts/circles.js] (and of the helpers that
    [scripts/app.js] repeats verbatim): [createAttribute], [makeShader],
    [createBuffer] and [generateCircleUniformData].

    - JavaScript numbers are IEEE-754 binary64 values, modelled by Rocq's
      primitive floats: the arguments and the products of [createAttribute]
      as much as what flows out of [Math.random()]; a store into a
      [Float32Array] rounds to binary32.
    - Loop counters and array lengths are counted in [nat] and [Z]; WebGL
      enumerants, which are only passed on, are integers in [Z].
    - The WebGL context is a state threaded through the helpers; a thrown
      JavaScript value is an explicit [Throw] completion.

    The bounds on the generated records are proved on the binary64
    operations themselves, through their specification in [SpecFloat]: a
    finite non-negative number is measured in units of 2^-1074, and each
    operation returns the rounding [rnd] of the exact result. *)

From Stdlib Require Import ZArith Lia String List Floats.
From stdpp Require Import gmap strings list.

Local Open Scope Z_scope.
Local Open Scope string_scope.

(** ** Completions: a call either returns or throws *)

(** The values the modelled code can throw. *)
Inductive js_exception : Type :=
  | Error (message : string)        (* [throw new Error(message)] *)
  | ThrownString (value : string)   (* [throw "text"]: a bare string *)
  | TypeError (message : string)    (* raised by the engine: property of undefined *)
  | RangeError (message : string).  (* raised by the engine: invalid array length *)

Inductive completion (A : Type) : Type :=
  | Return (a : A)
  | Throw (e : js_exception).
Arguments Return {A} a.
Arguments Throw {A} e.

Definition is_throw {A} (c : completion A) : bool :=
  match c with Throw _ => true | Return _ => false end.

(** ** Attribute descriptors ([createAttribute]) *)

(** WebGL enumerants are numbers. *)
Abbreviation GLenum := Z (only parsing).

Module GL.
Definition BYTE : GLenum := 5120.
Definition UNSIGNED_BYTE : GLenum := 5121.
Definition SHORT : GLenum := 5122.
Definition UNSIGNED_SHORT : GLenum := 5123.
Definition FLOAT : GLenum := 5126.
Definition ARRAY_BUFFER : GLenum := 34962.
Definition STATIC_DRAW : GLenum := 35044.
End GL.

(** [Float32Array.BYTES_PER_ELEMENT] *)
Definition BYTES_PER_ELEMENT : float := 4.

(** The [AttributeObject] of the JSDoc typedef. *)
Record AttributeObject : Type := {
  attr_name : string;
  attr_size : float;
  attr_stride : float;
  attr_offset : float;
  attr_type : GLenum;
  attr_normalized : bool
}.

(** The two products are products of JavaScript numbers: binary64, rounded
    to nearest. *)
Definition createAttribute (name : string) (numElements numVertex : float)
    (type : GLenum) (offset typeSize : float) (normalized : bool) : AttributeObject :=
  {| attr_name := name;
     attr_size := numElements;
     attr_stride := (numVertex * typeSize)%float;
     attr_offset := (offset * typeSize)%float;
     attr_type := type;
     attr_normalized := normalized |}.

(** The call with the default arguments [offset = 0],
    [typeSize = Float32Array.BYTES_PER_ELEMENT], [normalized = false]. *)
Definition createAttribute_default (name : string) (numElements numVertex : float)
    (type : GLenum) : AttributeObject :=
  createAttribute name numElements numVertex type 0 BYTES_PER_ELEMENT false.

(** ** JavaScript numbers *)

(** [Math.fround]: a binary64 value rounded to the nearest binary32 value
    (ties to even), as a store into a [Float32Array] does. *)
Definition fround (x : float) : float :=
  SF2Prim match Prim2SF x with
          | S754_finite s m e => binary_round 24 128 s m e
          | other => other
          end.

(** The content of a [Float32Array]. *)
Abbreviation Float32Array := (list float).

(** ** The WebGL context *)

Inductive shader_type : Type := VERTEX_SHADER | FRAGMENT_SHADER.

(** A shader object of the context: its stage, the source attached to it
    and, once compiled, the compile status and the info log. *)
Record shader_object : Type := {
  so_type : shader_type;
  so_source : string;
  so_compiled : option (bool * string)
}.

(** A linked program, as far as [createBuffer] looks at it: the active
    vertex attributes and their locations. *)
Record WebGLProgram : Type := {
  program_attributes : gmap string nat
}.

(** The state-changing calls a helper issues on the context. *)
Inductive gl_call : Type :=
  | CreateShader (type : shader_type)
  | ShaderSource (shader : nat) (source : string)
  | CompileShader (shader : nat)
  | CreateBuffer
  | BindBuffer (target : GLenum) (buffer : nat)
  | BufferData (target : GLenum) (data : Float32Array) (usage : GLenum)
  | VertexAttribPointer (index : nat) (size : float) (type : GLenum)
      (normalized : bool) (stride offset : float)
  | EnableVertexAttribArray (index : nat).

(** The rendering context: the GLSL compiler of the driver (compile
    status and info log of a source text at a stage), the shader objects
    (a handle is an index), the number of buffers, and the calls issued
    so far, oldest first. *)
Record WebGLRenderingContext : Type := {
  gl_compiler : shader_type -> string -> bool * string;
  gl_shaders : list shader_object;
  gl_buffers : nat;
  gl_calls : list gl_call
}.

Definition issue (c : gl_call) (gl : WebGLRenderingContext) : WebGLRenderingContext :=
  {| gl_compiler := gl_compiler gl;
     gl_shaders := gl_shaders gl;
     gl_buffers := gl_buffers gl;
     gl_calls := gl_calls gl ++ [c] |}.

Definition with_shaders (s : list shader_object) (gl : WebGLRenderingContext)
    : WebGLRenderingContext :=
  {| gl_compiler := gl_compiler gl;
     gl_shaders := s;
     gl_buffers := gl_buffers gl;
     gl_calls := gl_calls gl |}.

(** [gl.createShader(type)] *)
Definition gl_createShader (type : shader_type) (gl : WebGLRenderingContext)
    : nat * WebGLRenderingContext :=
  (length (gl_shaders gl),
   issue (CreateShader type)
     (with_shaders
        (gl_shaders gl ++ [{| so_type := type; so_source := ""; so_compiled := None |}])
        gl)).

(** [gl.shaderSource(shader, source)] *)
Definition gl_shaderSource (shader : nat) (source : string)
    (gl : WebGLRenderingContext) : WebGLRenderingContext :=
  issue (ShaderSource shader source)
    (with_shaders
       (alter (fun o => {| so_type := so_type o; so_source := source;
                           so_compiled := so_compiled o |}) shader (gl_shaders gl))
       gl).

(** [gl.compileShader(shader)]: the driver compiles the attached source. *)
Definition gl_compileShader (shader : nat) (gl : WebGLRenderingContext)
    : WebGLRenderingContext :=
  issue (CompileShader shader)
    (with_shaders
       (alter (fun o => {| so_type := so_type o; so_source := so_source o;
                           so_compiled :=
                             Some (gl_compiler gl (so_type o) (so_source o)) |})
              shader (gl_shaders gl))
       gl).

(** [gl.getShaderParameter(shader, gl.COMPILE_STATUS)] *)
Definition gl_getShaderParameter_COMPILE_STATUS (shader : nat)
    (gl : WebGLRenderingContext) : bool :=
  match gl_shaders gl !! shader with
  | Some {| so_compiled := Some (status, _) |} => status
  | _ => false
  end.

(** [gl.getShaderInfoLog(shader)] *)
Definition gl_getShaderInfoLog (shader : nat) (gl : WebGLRenderingContext) : string :=
  match gl_shaders gl !! shader with
  | Some {| so_compiled := Some (_, log) |} => log
  | _ => ""
  end.

(** [gl.createBuffer()] *)
Definition gl_createBuffer (gl : WebGLRenderingContext) : nat * WebGLRenderingContext :=
  (gl_buffers gl,
   issue CreateBuffer
     {| gl_compiler := gl_compiler gl;
        gl_shaders := gl_shaders gl;
        gl_buffers := S (gl_buffers gl);
        gl_calls := gl_calls gl |}).

(** [gl.getAttribLocation(program, name)]: [-1] when the program has no
    active attribute of that name. *)
Definition gl_getAttribLocation (program : WebGLProgram) (name : string) : Z :=
  match program_attributes program !! name with
  | Some location => Z.of_nat location
  | None => -1
  end.

(** *** [makeShader] *)

Definition stage_name (shaderType : shader_type) : string :=
  match shaderType with VERTEX_SHADER => "vertex" | _ => "fragment" end.

Definition makeShader (gl : WebGLRenderingContext) (shaderSource : string)
    (shaderType : shader_type) : completion nat * WebGLRenderingContext :=
  let '(shader, gl) := gl_createShader shaderType gl in
  let gl := gl_shaderSource shader shaderSource gl in
  let gl := gl_compileShader shader gl in
  if negb (gl_getShaderParameter_COMPILE_STATUS shader gl) then
    (Throw (Error ("ERROR compiling " ++ stage_name shaderType ++ " shader: "
                     ++ gl_getShaderInfoLog shader gl)), gl)
  else (Return shader, gl).

(** *** [createBuffer] *)

(** The body of the [attributes.forEach] callback. *)
Definition configure_attribute (program : WebGLProgram) (attr : AttributeObject)
    (gl : WebGLRenderingContext) : completion unit * WebGLRenderingContext :=
  let attrLocation := gl_getAttribLocation program (attr_name attr) in
  if Z.eqb attrLocation (-1) then
    (Throw (ThrownString ("Can not find attribute " ++ attr_name attr ++ ".")), gl)
  else
    let gl := issue (VertexAttribPointer (Z.to_nat attrLocation) (attr_size attr)
                       (attr_type attr) (attr_normalized attr)
                       (attr_stride attr) (attr_offset attr)) gl in
    let gl := issue (EnableVertexAttribArray (Z.to_nat attrLocation)) gl in
    (Return tt, gl).

(** [attributes.forEach(callback)]: in list order; a throw in the callback
    abandons the rest of the list. *)
Fixpoint forEach_attribute (program : WebGLProgram) (attributes : list AttributeObject)
    (gl : WebGLRenderingContext) : completion unit * WebGLRenderingContext :=
  match attributes with
  | [] => (Return tt, gl)
  | attr :: rest =>
      match configure_attribute program attr gl with
      | (Return _, gl) => forEach_attribute program rest gl
      | (Throw e, gl) => (Throw e, gl)
      end
  end.

Definition createBuffer (gl : WebGLRenderingContext) (program : WebGLProgram)
    (bufferData : Float32Array) (attributes : list AttributeObject)
    (type bufferDataType : GLenum) : completion unit * WebGLRenderingContext :=
  let '(buffer, gl) := gl_createBuffer gl in
  let gl := issue (BindBuffer type buffer) gl in
  let gl := issue (BufferData type bufferData bufferDataType) gl in
  forEach_attribute program attributes gl.

(** The calls that configure and enable one attribute found at [location]. *)
Definition attribute_calls (program : WebGLProgram) (attr : AttributeObject)
    : list gl_call :=
  let location := Z.to_nat (gl_getAttribLocation program (attr_name attr)) in
  [VertexAttribPointer location (attr_size attr) (attr_type attr)
     (attr_normalized attr) (attr_stride attr) (attr_offset attr);
   EnableVertexAttribArray location].

(** The attribute named by the descriptor is an input of the program. *)
Definition found (program : WebGLProgram) (attr : AttributeObject) : Prop :=
  is_Some (program_attributes program !! attr_name attr).

(** ** The circle generator ([generateCircleUniformData]) *)

(** Number of circles to generate *)
Definition NUM_CIRCLES : Z := 12.

Record RadiusLimits : Type := { rl_min : float; rl_max : float }.
Record CanvasDimensions : Type := { cd_width : float; cd_height : float }.
Record Circle : Type := { c_x : float; c_y : float; c_r : float }.

Section Generator.
Local Open Scope float_scope.

(** [Math.random()]: the engine's generator is a sequence of draws; the
    state threaded through the code is how many were taken so far. *)
Variable Math_random : nat -> float.

Variable radiusLimits : RadiusLimits.
Variable canvasDimensions : CanvasDimensions.

Definition CIRCLE_ELEMENTS : Z := 3.

Definition sizeLimit : float :=
  if cd_width canvasDimensions <? cd_height canvasDimensions
  then cd_width canvasDimensions
  else cd_height canvasDimensions.

Definition MAX_RADIUS : float := sizeLimit / rl_max radiusLimits.
Definition MIN_RADIUS : float := sizeLimit / rl_min radiusLimits.

(** One pass through the body of the first loop: three draws, in the
    order radius, x, y. *)
Definition draw_circle (draws : nat) : Circle :=
  let radius := Math_random draws * (MAX_RADIUS - MIN_RADIUS) + MIN_RADIUS in
  let x := Math_random (draws + 1)%nat
           * (cd_width canvasDimensions - 2 * radius) + radius in
  let y := Math_random (draws + 2)%nat
           * (cd_height canvasDimensions - 2 * radius) + radius in
  {| c_x := x; c_y := y; c_r := radius |}.

(** [for (let i = 0; i < numCircles; i++) { ...; circles.push(...) }],
    with [n] passes left to run. *)
Fixpoint circles_loop (n : nat) (draws : nat) (circles : list Circle)
    : list Circle * nat :=
  match n with
  | O => (circles, draws)
  | S n' => circles_loop n' (draws + 3)%nat (circles ++ [draw_circle draws])
  end.

(** The three stores of one pass of the packing loop: each value is
    rounded to binary32. A typed array ignores a store outside its bounds,
    as [<[_:=_]>] does. *)
Definition store_circle (i : nat) (circle : Circle) (uniformData : Float32Array)
    : Float32Array :=
  let baseIndex := (Z.to_nat CIRCLE_ELEMENTS * i)%nat in
  let uniformData := <[(baseIndex + 0)%nat := fround (c_x circle)]> uniformData in
  let uniformData := <[(baseIndex + 1)%nat := fround (c_y circle)]> uniformData in
  <[(baseIndex + 2)%nat := fround (c_r circle)]> uniformData.

(** [for (let i = 0; i < NUM_CIRCLES; i++) { ... }] from index [i] on,
    with [n] passes left to run; [circles[i]] is [undefined] past the end
    of [circles], and reading [.x] of it throws. *)
Fixpoint pack_loop (n : nat) (i : nat) (circles : list Circle)
    (uniformData : Float32Array) : completion Float32Array :=
  match n with
  | O => Return uniformData
  | S n' =>
      match circles !! i with
      | None => Throw (TypeError "Cannot read properties of undefined (reading 'x')")
      | Some circle => pack_loop n' (S i) circles (store_circle i circle uniformData)
      end
  end.

(** [new Float32Array(length)]: zero-filled; a negative length throws. *)
Definition new_Float32Array (length : Z) : completion Float32Array :=
  if (length <? 0)%Z then Throw (RangeError "Invalid typed array length")
  else Return (replicate (Z.to_nat length) 0).

(** The records the first loop generates for [numCircles]. *)
Definition generated_circles (numCircles : Z) (draws : nat) : list Circle :=
  fst (circles_loop (Z.to_nat numCircles) draws []).

Definition generateCircleUniformData (numCircles : Z) (draws : nat)
    : completion Float32Array * nat :=
  let '(circles, draws) := circles_loop (Z.to_nat numCircles) draws [] in
  match new_Float32Array (CIRCLE_ELEMENTS * numCircles) with
  | Throw e => (Throw e, draws)
  | Return uniformData =>
      (pack_loop (Z.to_nat NUM_CIRCLES) 0 circles uniformData, draws)
  end.

End Generator.

(** ** The properties under study *)

(** [part] occurs in [whole]. *)
Definition includes (part whole : string) : Prop :=
  exists before after, whole = before ++ part ++ after.

(** The calls issued between two states of the context. *)
Definition issued_since (before after : WebGLRenderingContext)
    (calls : list gl_call) : Prop :=
  gl_calls after = (gl_calls before ++ calls)%list.

(** The three calls that create, bind and fill the buffer. *)
Definition upload_calls (gl : WebGLRenderingContext) (type : GLenum)
    (bufferData : Float32Array) (bufferDataType : GLenum) : list gl_call :=
  [CreateBuffer; BindBuffer type (gl_buffers gl);
   BufferData type bufferData bufferDataType].

Definition is_attribute_call (c : gl_call) : bool :=
  match c with
  | VertexAttribPointer _ _ _ _ _ _ | EnableVertexAttribArray _ => true
  | _ => false
  end.

(** A draw of [Math.random()] lies in [0, 1). *)
Definition unit_interval (u : float) : bool :=
  (0 <=? u)%float && (u <? 1)%float.

(** A length of at least one pixel, and finite. *)
Definition pixel_length (a : float) : bool :=
  (1 <=? a)%float && (a <? infinity)%float.

(** A side of the canvas: zero, or at least one pixel and finite. *)
Definition canvas_side (a : float) : bool :=
  (a =? 0)%float || pixel_length a.

(** [minRadius <= radius <= maxRadius] and [radius > 0]. *)
Definition radius_in_range (radiusLimits : RadiusLimits)
    (canvasDimensions : CanvasDimensions) (c : Circle) : bool :=
  (MIN_RADIUS radiusLimits canvasDimensions <=? c_r c)%float
  && (c_r c <=? MAX_RADIUS radiusLimits canvasDimensions)%float
  && (0 <? c_r c)%float.

(** [r <= x <= width - r] and [r <= y <= height - r]. *)
Definition bounding_box_in_canvas (canvasDimensions : CanvasDimensions)
    (c : Circle) : bool :=
  (c_r c <=? c_x c)%float
  && (c_x c <=? cd_width canvasDimensions - c_r c)%float
  && (c_r c <=? c_y c)%float
  && (c_y c <=? cd_height canvasDimensions - c_r c)%float.

(** The flat array holds the record at index [i]: three consecutive
    entries x, y, r, as a [Float32Array] stores them. *)
Definition holds_record (uniformData : Float32Array) (i : nat) (c : Circle) : Prop :=
  uniformData !! (3 * i)%nat = Some (fround (c_x c)) /\
  uniformData !! (3 * i + 1)%nat = Some (fround (c_y c)) /\
  uniformData !! (3 * i + 2)%nat = Some (fround (c_r c)).

(** The array is exactly the records of [circles], packed in order. *)
Definition packs (uniformData : Float32Array) (circles : list Circle) : Prop :=
  length uniformData = (3 * length circles)%nat /\
  forall i c, circles !! i = Some c -> holds_record uniformData i c.

(** ** Rounding to binary64: definitions *)

Section Rounding.
Local Open Scope Z_scope.

(** Round to nearest, ties to even, of the rational N / D. *)
Definition rne (N D : Z) : Z :=
  let q := N / D in
  let r := N mod D in
  if 2 * r <? D then q
  else if D <? 2 * r then q + 1
  else if Z.even q then q else q + 1.

(** The exponent of the binade of the non-negative integer [q], counted in
    units of the smallest subnormal: [0] up to [2^53]. *)
Definition cexp (q : Z) : Z := Z.max 0 (Z.log2 q - 52).

(** Rounding of the non-negative rational N / D (in units of 2^-1074)
    to the nearest binary64 value, ties to even, overflow aside. *)
Definition rnd (N D : Z) : Z :=
  let j := cexp (N / D) in rne N (D * 2 ^ j) * 2 ^ j.

(** The non-negative binary64 values, overflow aside, in units of 2^-1074. *)
Definition Fmt (k : Z) : Prop :=
  exists m j, 0 <= j /\ 0 <= m < 2 ^ 53 /\ k = m * 2 ^ j.

(** The record holds the floor of A / B, a round bit telling whether the
    fractional part is at least 1/2, and a sticky bit telling whether it
    is neither 0 nor 1/2. *)
Definition located (A B : Z) (mrs : shr_record) : Prop :=
  0 <= shr_m mrs /\
  shr_m mrs * B <= A < (shr_m mrs + 1) * B /\
  shr_r mrs = (B <=? 2 * (A - shr_m mrs * B)) /\
  shr_s mrs = negb ((A - shr_m mrs * B =? 0) || (2 * (A - shr_m mrs * B) =? B)).

(** The value of a finite binary64 number in units of 2^-1074. *)
Definition SFval (x : spec_float) : option Z :=
  match x with
  | S754_zero _ => Some 0
  | S754_finite s m e => Some (cond_Zopp s (Zpos m * 2 ^ (e + 1074)))
  | _ => None
  end.

Definition valid (x : spec_float) : Prop := SpecFloat.valid_binary prec emax x = true.

(** [x] is a finite non-negative binary64 number of value [v * 2^-1074]. *)
Definition fnn (x : float) (v : Z) : Prop :=
  SFval (Prim2SF x) = Some v /\ 0 <= v.

(** The JavaScript number [x] is the non-negative integer [n]. *)
Definition integer_value (x : float) (n : Z) : Prop := fnn x (n * 2 ^ 1074).

(** The exact value of a finite binary64 number, in units of 2^-1074. *)
Definition exact_value (x : float) : option Z := SFval (Prim2SF x).

End Rounding.

(** The data-model invariant of an attribute descriptor whose components
    are [elementSize] bytes wide: the three numbers are integers, the
    component count is one of 1, 2, 3, 4, and the components end within
    the stride. *)
Definition descriptor_invariant (elementSize : Z) (a : AttributeObject) : Prop :=
  exists size offset stride : Z,
    integer_value (attr_size a) size /\
    integer_value (attr_offset a) offset /\
    integer_value (attr_stride a) stride /\
    (size = 1 \/ size = 2 \/ size = 3 \/ size = 4) /\
    offset + size * elementSize <= stride.

(** ** Strings *)

Lemma string_app_nil_r (s : string) : s ++ "" = s.
Proof.
  induction s as [|a s IH]; [reflexivity|].
  change (String a s ++ "") with (String a (s ++ "")). now rewrite IH.
Qed.

Lemma string_app_assoc (a b c : string) : (a ++ b) ++ c = a ++ (b ++ c).
Proof.
  induction a as [|x a IH]; [reflexivity|].
  change ((String x a ++ b) ++ c) with (String x ((a ++ b) ++ c)).
  now rewrite IH.
Qed.

Lemma string_app_inv_head (a b c : string) : a ++ b = a ++ c -> b = c.
Proof.
  induction a as [|x a IH]; intros H; [exact H|].
  change (String x (a ++ b) = String x (a ++ c)) in H.
  injection H as H. exact (IH H).
Qed.

(** ** makeShader *)

Section makeShader_properties.
Implicit Types gl : WebGLRenderingContext.

Lemma compiled_shader_lookup gl shaderSource shaderType :
  gl_shaders
    (gl_compileShader (length (gl_shaders gl))
       (gl_shaderSource (length (gl_shaders gl)) shaderSource
          (snd (gl_createShader shaderType gl))))
    !! length (gl_shaders gl)
  = Some {| so_type := shaderType; so_source := shaderSource;
            so_compiled := Some (gl_compiler gl shaderType shaderSource) |}.
Proof.
  cbn [gl_compileShader gl_shaderSource gl_createShader snd issue with_shaders
       gl_shaders gl_compiler].
  rewrite !list_lookup_alter_eq, list_lookup_middle by reflexivity.
  reflexivity.
Qed.

Lemma makeShader_unfold gl shaderSource shaderType :
  fst (makeShader gl shaderSource shaderType)
  = if fst (gl_compiler gl shaderType shaderSource)
    then Return (length (gl_shaders gl))
    else Throw (Error ("ERROR compiling " ++ stage_name shaderType ++ " shader: "
                         ++ snd (gl_compiler gl shaderType shaderSource))).
Proof.
  unfold makeShader.
  cbn [gl_createShader].
  unfold gl_getShaderParameter_COMPILE_STATUS, gl_getShaderInfoLog.
  pose proof (compiled_shader_lookup gl shaderSource shaderType) as H.
  cbn [gl_createShader snd] in H. rewrite H. cbn.
  destruct (gl_compiler gl shaderType shaderSource) as [[] log]; reflexivity.
Qed.
End makeShader_properties.

(** C6, as stated, fails in its last part: the info log of a failed
    compile can be empty, and the message of makeShader then ends after
    "shader: ". On a driver that reports failure without diagnostic, a
    failing fragment-stage compile reports the stage and an empty log. *)
Lemma makeShader_failure_message_counterexample :
  let gl := {| gl_compiler := fun _ _ => (false, "");
               gl_shaders := []; gl_buffers := 0; gl_calls := [] |} in
  let outcome := makeShader gl "void main() {" FRAGMENT_SHADER in
  fst (gl_compiler gl FRAGMENT_SHADER "void main() {") = false /\
  fst outcome = Throw (Error "ERROR compiling fragment shader: ") /\
  gl_getShaderInfoLog 0 (snd outcome) = "" /\
  ~ (exists log, log <> "" /\
       fst outcome = Throw (Error ("ERROR compiling fragment shader: " ++ log))).
Proof.
  cbv zeta. repeat split.
  intros (log & Hlog & H). vm_compute in H. injection H as H.
  apply Hlog. symmetry. exact H.
Qed.

(** C6, amended: when the driver's compiler reports failure, [makeShader]
    throws an [Error] whose message names the stage passed in ("vertex"
    for [VERTEX_SHADER], "fragment" for [FRAGMENT_SHADER]) and ends with
    the whole info log, whatever the log is; at the fragment stage the
    message is "ERROR compiling fragment shader: " followed by that log,
    and the log part is empty exactly when the driver's log is. *)
Theorem makeShader_failure_message :
  forall (gl : WebGLRenderingContext) shaderSource shaderType,
    fst (gl_compiler gl shaderType shaderSource) = false ->
    let log := snd (gl_compiler gl shaderType shaderSource) in
    let stage := match shaderType with
                 | VERTEX_SHADER => "vertex"
                 | FRAGMENT_SHADER => "fragment"
                 end in
    exists message,
      fst (makeShader gl shaderSource shaderType) = Throw (Error message) /\
      message = "ERROR compiling " ++ stage ++ " shader: " ++ log /\
      includes stage message /\
      includes log message /\
      (shaderType = FRAGMENT_SHADER ->
       message = "ERROR compiling fragment shader: " ++ log) /\
      (log = "" <-> message = "ERROR compiling " ++ stage ++ " shader: ").
Proof.
  intros gl src ty Hfail log stage.
  exists ("ERROR compiling " ++ stage ++ " shader: " ++ log).
  split; [|split; [reflexivity|split; [|split; [|split]]]].
  - rewrite makeShader_unfold, Hfail. subst stage log. destruct ty; reflexivity.
  - exists "ERROR compiling ", (" shader: " ++ log). reflexivity.
  - exists ("ERROR compiling " ++ stage ++ " shader: "), "".
    now rewrite string_app_nil_r, !string_app_assoc.
  - intros ->. reflexivity.
  - split.
    + intros ->. now rewrite string_app_nil_r.
    + intros H.
      apply (string_app_inv_head ("ERROR compiling " ++ stage ++ " shader: ")).
      rewrite string_app_nil_r, !string_app_assoc. exact H.
Qed.

(** ** createBuffer *)

Section createBuffer_properties.
Implicit Types gl : WebGLRenderingContext.
Implicit Types program : WebGLProgram.

(** The context after a list of calls that change nothing but the log. *)
Definition issue_all (calls : list gl_call) gl : WebGLRenderingContext :=
  foldl (fun gl c => issue c gl) gl calls.

Lemma issue_all_calls calls gl :
  gl_calls (issue_all calls gl) = (gl_calls gl ++ calls)%list.
Proof.
  revert gl. induction calls as [|c calls IH]; intros gl; cbn.
  - now rewrite app_nil_r.
  - unfold issue_all in IH. rewrite IH. cbn. now rewrite <- app_assoc.
Qed.

Lemma issue_all_app calls1 calls2 gl :
  issue_all (calls1 ++ calls2) gl = issue_all calls2 (issue_all calls1 gl).
Proof. unfold issue_all. apply foldl_app. Qed.

Global Instance found_dec program attr : Decision (found program attr).
Proof. unfold found. apply _. Defined.

Lemma configure_attribute_found program attr gl :
  found program attr ->
  configure_attribute program attr gl
  = (Return tt, issue_all (attribute_calls program attr) gl).
Proof.
  intros [location Hloc].
  unfold configure_attribute, attribute_calls, gl_getAttribLocation.
  rewrite Hloc.
  destruct (Z.eqb_spec (Z.of_nat location) (-1)) as [E|_]; [lia|reflexivity].
Qed.

Lemma configure_attribute_not_found program attr gl :
  ~ found program attr ->
  configure_attribute program attr gl
  = (Throw (ThrownString ("Can not find attribute " ++ attr_name attr ++ ".")), gl).
Proof.
  intros Hnot. unfold configure_attribute, gl_getAttribLocation.
  destruct (program_attributes program !! attr_name attr) as [l|] eqn:E.
  - exfalso. apply Hnot. unfold found. rewrite E. eauto.
  - reflexivity.
Qed.

(** The loop runs through a prefix of attributes that are all found,
    issuing their calls in order. *)
Lemma forEach_attribute_found_prefix program pre rest gl :
  Forall (found program) pre ->
  forEach_attribute program (pre ++ rest) gl
  = forEach_attribute program rest
      (issue_all (flat_map (attribute_calls program) pre) gl).
Proof.
  intros Hpre. revert gl.
  induction Hpre as [|attr pre Hattr _ IH]; intros gl; [reflexivity|].
  cbn [app forEach_attribute flat_map].
  rewrite (configure_attribute_found _ _ _ Hattr), IH, issue_all_app.
  reflexivity.
Qed.

(** A list with a missing attribute splits at the first one. *)
Lemma first_not_found program attributes :
  Exists (fun attr => ~ found program attr) attributes ->
  exists pre attr post,
    attributes = (pre ++ attr :: post)%list /\
    Forall (found program) pre /\ ~ found program attr.
Proof.
  induction attributes as [|a l IH]; intros Hex.
  - inversion Hex.
  - destruct (decide (found program a)) as [Ha|Ha].
    + destruct IH as (pre & attr & post & -> & Hpre & Hattr).
      { inversion Hex; subst; [contradiction|assumption]. }
      exists (a :: pre), attr, post. repeat split; auto.
    + exists [], a, l. repeat split; auto.
Qed.

(** What [createBuffer] does when the first missing attribute is
    [attr], after [pre]. *)
Lemma createBuffer_first_not_found gl program bufferData pre attr post type usage :
  Forall (found program) pre ->
  ~ found program attr ->
  createBuffer gl program bufferData (pre ++ attr :: post) type usage
  = (Throw (ThrownString ("Can not find attribute " ++ attr_name attr ++ ".")),
     issue_all (flat_map (attribute_calls program) pre)
       (issue_all [BindBuffer type (gl_buffers gl);
                   BufferData type bufferData usage]
          (snd (gl_createBuffer gl)))).
Proof.
  intros Hpre Hattr. unfold createBuffer. cbn [gl_createBuffer snd].
  rewrite (forEach_attribute_found_prefix _ _ _ _ Hpre).
  cbn [forEach_attribute].
  rewrite (configure_attribute_not_found _ _ _ Hattr). reflexivity.
Qed.

Lemma createBuffer_first_not_found_calls gl program bufferData pre attr post type usage :
  Forall (found program) pre ->
  ~ found program attr ->
  issued_since gl
    (snd (createBuffer gl program bufferData (pre ++ attr :: post) type usage))
    (upload_calls gl type bufferData usage
     ++ flat_map (attribute_calls program) pre).
Proof.
  intros Hpre Hattr. unfold issued_since, upload_calls.
  rewrite (createBuffer_first_not_found _ _ _ _ _ _ _ _ Hpre Hattr).
  cbn [snd]. rewrite !issue_all_calls. cbn. rewrite <- !app_assoc. reflexivity.
Qed.
End createBuffer_properties.

(** C5: when some attribute of the list has no location in the program,
    [createBuffer] throws the string "Can not find attribute <name>." for
    the first such attribute, and the calls it issued are the upload
    followed by the calls of the attributes before that one: none of the
    descriptors after it is configured or enabled. *)
Theorem createBuffer_attribute_not_found :
  forall (gl : WebGLRenderingContext) program bufferData
         attributes type bufferDataType,
    Exists (fun attr => ~ found program attr) attributes ->
    exists pre attr post,
      attributes = (pre ++ attr :: post)%list /\
      Forall (found program) pre /\
      gl_getAttribLocation program (attr_name attr) = -1 /\
      fst (createBuffer gl program bufferData attributes type bufferDataType)
        = Throw (ThrownString ("Can not find attribute " ++ attr_name attr ++ ".")) /\
      includes (attr_name attr) ("Can not find attribute " ++ attr_name attr ++ ".") /\
      issued_since gl
        (snd (createBuffer gl program bufferData attributes type bufferDataType))
        (upload_calls gl type bufferData bufferDataType
         ++ flat_map (attribute_calls program) pre) /\
      length (List.filter is_attribute_call
                (drop (length (gl_calls gl))
                   (gl_calls (snd (createBuffer gl program bufferData attributes
                                     type bufferDataType)))))
        = (2 * length pre)%nat.
Proof.
  intros gl program bufferData attributes type usage Hex.
  destruct (first_not_found _ _ Hex) as (pre & attr & post & -> & Hpre & Hattr).
  exists pre, attr, post.
  pose proof (createBuffer_first_not_found_calls gl program bufferData pre attr post
                type usage Hpre Hattr) as Hcalls.
  repeat split; try assumption.
  - unfold gl_getAttribLocation.
    destruct (program_attributes program !! attr_name attr) eqn:E; [|reflexivity].
    exfalso. apply Hattr. unfold found. rewrite E. eauto.
  - now rewrite (createBuffer_first_not_found _ _ _ _ _ _ _ _ Hpre Hattr).
  - exists "Can not find attribute ", ".". reflexivity.
  - unfold issued_since in Hcalls. rewrite Hcalls, drop_app_length.
    unfold upload_calls. cbn [app List.filter is_attribute_call].
    clear. induction pre as [|a pre IH]; [reflexivity|].
    cbn [flat_map attribute_calls app List.filter is_attribute_call length].
    rewrite IH. lia.
Qed.

(** C10: the buffer is created, bound and filled before the first
    attribute is looked up. When [createBuffer] throws for a missing
    attribute, the upload calls have been issued (first, and whatever the
    position of the missing attribute), a buffer has been allocated, every
    attribute before the missing one has been configured and enabled, and
    the context is not the one the call started from. *)
Theorem createBuffer_failure_leaves_state :
  forall (gl : WebGLRenderingContext) program bufferData
         pre attr post type bufferDataType,
    Forall (found program) pre ->
    ~ found program attr ->
    let outcome :=
      createBuffer gl program bufferData (pre ++ attr :: post) type bufferDataType in
    is_throw (fst outcome) = true /\
    (exists later,
        issued_since gl (snd outcome)
          (upload_calls gl type bufferData bufferDataType ++ later) /\
        forall a c, In a pre -> In c (attribute_calls program a) -> In c later) /\
    gl_buffers (snd outcome) = S (gl_buffers gl) /\
    snd outcome <> gl.
Proof.
  intros gl program bufferData pre attr post type usage Hpre Hattr outcome.
  pose proof (createBuffer_first_not_found_calls gl program bufferData pre attr post
                type usage Hpre Hattr) as Hcalls.
  pose proof (createBuffer_first_not_found gl program bufferData pre attr post
                type usage Hpre Hattr) as Hrun.
  fold outcome in Hcalls, Hrun.
  assert (Hbuf : gl_buffers (snd outcome) = S (gl_buffers gl)).
  { rewrite Hrun. cbn [snd gl_createBuffer].
    generalize (flat_map (attribute_calls program) pre).
    intros calls. unfold issue_all. rewrite <- foldl_app.
    generalize ([BindBuffer type (gl_buffers gl); BufferData type bufferData usage]
                  ++ calls)%list.
    intros l. set (g := issue CreateBuffer _).
    change (S (gl_buffers gl)) with (gl_buffers g). clearbody g. revert g.
    induction l as [|c l IH]; intros g; [reflexivity|]. cbn. now rewrite IH. }
  repeat split.
  - rewrite Hrun. reflexivity.
  - exists (flat_map (attribute_calls program) pre). split; [exact Hcalls|].
    intros a c Ha Hc. apply in_flat_map. eauto.
  - exact Hbuf.
  - intros E. rewrite E in Hbuf. lia.
Qed.

(** *** A concrete scene: one attribute the program has, one it lacks *)

Definition scene_program : WebGLProgram :=
  {| program_attributes := {[ "vertPosition" := 0%nat ]} |}.

Definition scene_context : WebGLRenderingContext :=
  {| gl_compiler := fun _ _ => (false, "ERROR: 0:7: syntax error");
     gl_shaders := [];
     gl_buffers := 0;
     gl_calls := [] |}.

Definition scene_bufferData : Float32Array :=
  [(-1)%float; 1%float; (-1)%float; (-1)%float;
   1%float; 1%float; 1%float; (-1)%float].

Definition vertPosition : AttributeObject :=
  createAttribute_default "vertPosition" 2 2 GL.FLOAT.
Definition doesNotExist : AttributeObject :=
  createAttribute_default "doesNotExist" 3 5 GL.FLOAT.

Lemma vertPosition_found : found scene_program vertPosition.
Proof. exists 0%nat. reflexivity. Qed.

Lemma doesNotExist_not_found : ~ found scene_program doesNotExist.
Proof. intros [l H]. vm_compute in H. discriminate H. Qed.

Lemma makeShader_failure_message_witness :
  fst (makeShader scene_context "void main() {" FRAGMENT_SHADER)
  = Throw (Error "ERROR compiling fragment shader: ERROR: 0:7: syntax error").
Proof.
  destruct (makeShader_failure_message scene_context "void main() {"
              FRAGMENT_SHADER) as (message & Hthrow & Hmessage & _).
  - reflexivity.
  - rewrite Hthrow, Hmessage. reflexivity.
Defined.

Lemma createBuffer_attribute_not_found_witness :
  exists attr,
    gl_getAttribLocation scene_program (attr_name attr) = -1 /\
    fst (createBuffer scene_context scene_program scene_bufferData
           [vertPosition; doesNotExist; vertPosition] GL.ARRAY_BUFFER GL.STATIC_DRAW)
    = Throw (ThrownString ("Can not find attribute " ++ attr_name attr ++ ".")).
Proof.
  destruct (createBuffer_attribute_not_found scene_context scene_program
              scene_bufferData [vertPosition; doesNotExist; vertPosition]
              GL.ARRAY_BUFFER GL.STATIC_DRAW)
    as (pre & attr & post & Hsplit & Hpre & Hloc & Hthrow & _).
  - apply Exists_cons_tl, Exists_cons_hd. exact doesNotExist_not_found.
  - exists attr. split; assumption.
Defined.

Lemma createBuffer_failure_leaves_state_witness :
  gl_buffers (snd (createBuffer scene_context scene_program scene_bufferData
                     ([vertPosition] ++ doesNotExist :: [vertPosition])
                     GL.ARRAY_BUFFER GL.STATIC_DRAW)) = 1%nat.
Proof.
  apply (createBuffer_failure_leaves_state scene_context scene_program
           scene_bufferData [vertPosition] doesNotExist [vertPosition]
           GL.ARRAY_BUFFER GL.STATIC_DRAW).
  - repeat constructor. exact vertPosition_found.
  - exact doesNotExist_not_found.
Defined.

(** ** generateCircleUniformData: the two loops *)

Section Generator_lemmas.
Variable Math_random : nat -> float.
Variable radiusLimits : RadiusLimits.
Variable canvasDimensions : CanvasDimensions.

Abbreviation draw := (draw_circle Math_random radiusLimits canvasDimensions).
Abbreviation gen_loop := (circles_loop Math_random radiusLimits canvasDimensions).
Abbreviation generated := (generated_circles Math_random radiusLimits canvasDimensions).

Lemma circles_loop_spec n draws circles :
  gen_loop n draws circles
  = ((circles ++ map (fun i => draw (draws + 3 * i)%nat) (seq 0 n))%list,
     (draws + 3 * n)%nat).
Proof.
  revert draws circles. induction n as [|n IH]; intros draws circles.
  - cbn. rewrite app_nil_r. f_equal. lia.
  - cbn [circles_loop]. rewrite IH. cbn [seq map].
    rewrite <- app_assoc. cbn [app]. f_equal.
    + f_equal. f_equal.
      * f_equal. lia.
      * rewrite <- seq_shift, map_map. apply map_ext. intros i. f_equal. lia.
    + lia.
Qed.

Lemma generated_circles_spec numCircles draws :
  generated numCircles draws
  = map (fun i => draw (draws + 3 * i)%nat) (seq 0 (Z.to_nat numCircles)).
Proof. unfold generated_circles. now rewrite circles_loop_spec. Qed.

Lemma generated_circles_length numCircles draws :
  length (generated numCircles draws) = Z.to_nat numCircles.
Proof. now rewrite generated_circles_spec, length_map, length_seq. Qed.

(** Every generated record comes from three consecutive draws. *)
Lemma generated_circles_In numCircles draws c :
  In c (generated numCircles draws) ->
  exists k, c = draw k.
Proof.
  rewrite generated_circles_spec. intros H.
  apply in_map_iff in H as (i & <- & _). eauto.
Qed.

Lemma store_circle_length i c uniformData :
  length (store_circle i c uniformData) = length uniformData.
Proof. unfold store_circle. now rewrite !length_insert. Qed.

Lemma store_circle_other i c uniformData j :
  (j < 3 * i \/ 3 * (i + 1) <= j)%nat ->
  store_circle i c uniformData !! j = uniformData !! j.
Proof.
  intros Hj. unfold store_circle.
  change (Z.to_nat CIRCLE_ELEMENTS) with 3%nat. cbv zeta.
  rewrite !list_lookup_insert_ne by lia. reflexivity.
Qed.

Lemma store_circle_holds i c uniformData :
  (3 * i + 2 < length uniformData)%nat ->
  holds_record (store_circle i c uniformData) i c.
Proof.
  intros Hlen. unfold holds_record, store_circle.
  change (Z.to_nat CIRCLE_ELEMENTS) with 3%nat.
  replace (3 * i + 0)%nat with (3 * i)%nat by lia.
  repeat split.
  - rewrite !list_lookup_insert_ne by lia.
    apply list_lookup_insert_eq. lia.
  - rewrite list_lookup_insert_ne by lia.
    apply list_lookup_insert_eq. rewrite length_insert. lia.
  - apply list_lookup_insert_eq. rewrite !length_insert. lia.
Qed.

(** The packing loop returns when [circles] has a record for each of
    its passes: the records it passed are in the array, the rest of the
    array is untouched. *)
Lemma pack_loop_returns n : forall i circles uniformData,
  (i + n <= length circles)%nat ->
  (3 * (i + n) <= length uniformData)%nat ->
  exists packed,
    pack_loop n i circles uniformData = Return packed /\
    length packed = length uniformData /\
    (forall j, (j < 3 * i \/ 3 * (i + n) <= j)%nat ->
               packed !! j = uniformData !! j) /\
    (forall k c, (i <= k < i + n)%nat -> circles !! k = Some c ->
                 holds_record packed k c).
Proof.
  induction n as [|n IH]; intros i circles uniformData Hcircles Hlen.
  - exists uniformData. repeat split; intros; lia.
  - cbn [pack_loop].
    destruct (circles !! i) as [c|] eqn:Hi.
    2:{ apply lookup_ge_None in Hi. lia. }
    destruct (IH (S i) circles (store_circle i c uniformData))
      as (packed & Hrun & Hlength & Hother & Hrecords).
    { lia. } { rewrite store_circle_length. lia. }
    exists packed. rewrite store_circle_length in Hlength.
    split; [exact Hrun|]. split; [exact Hlength|]. split.
    + intros j Hj. rewrite Hother by lia. apply store_circle_other. lia.
    + intros k c' Hk Hc'.
      destruct (decide (k = i)) as [->|Hne].
      * assert (c' = c) as -> by congruence.
        destruct (store_circle_holds i c uniformData) as (Hx & Hy & Hr); [lia|].
        unfold holds_record. rewrite !Hother by lia. auto.
      * apply Hrecords; [lia|assumption].
Qed.

(** The packing loop throws when it outruns [circles]. *)
Lemma pack_loop_throws n : forall i circles uniformData,
  (i <= length circles < i + n)%nat ->
  pack_loop n i circles uniformData
  = Throw (TypeError "Cannot read properties of undefined (reading 'x')").
Proof.
  induction n as [|n IH]; intros i circles uniformData Hn; [lia|].
  cbn [pack_loop].
  destruct (circles !! i) as [c|] eqn:Hi; [|reflexivity].
  apply IH. apply lookup_lt_Some in Hi. lia.
Qed.

Lemma generateCircleUniformData_unfold numCircles draws :
  fst (generateCircleUniformData Math_random radiusLimits canvasDimensions
         numCircles draws)
  = match new_Float32Array (CIRCLE_ELEMENTS * numCircles) with
    | Throw e => Throw e
    | Return uniformData =>
        pack_loop (Z.to_nat NUM_CIRCLES) 0 (generated numCircles draws) uniformData
    end.
Proof.
  unfold generateCircleUniformData, generated_circles.
  destruct (gen_loop (Z.to_nat numCircles) draws []) as [circles draws'].
  cbn [fst]. destruct (new_Float32Array _); reflexivity.
Qed.

(** Below [NUM_CIRCLES] the function throws: a [RangeError] for a
    negative count, a [TypeError] otherwise. *)
Lemma generateCircleUniformData_below numCircles draws :
  numCircles < NUM_CIRCLES ->
  fst (generateCircleUniformData Math_random radiusLimits canvasDimensions
         numCircles draws)
  = if (numCircles <? 0)%Z
    then Throw (RangeError "Invalid typed array length")
    else Throw (TypeError "Cannot read properties of undefined (reading 'x')").
Proof.
  intros Hlt. rewrite generateCircleUniformData_unfold.
  unfold new_Float32Array, CIRCLE_ELEMENTS, NUM_CIRCLES in *.
  destruct (Z.ltb_spec numCircles 0) as [Hneg|Hpos];
    destruct (Z.ltb_spec (3 * numCircles) 0) as [Hneg'|Hpos']; try lia.
  - reflexivity.
  - apply pack_loop_throws. rewrite generated_circles_length. lia.
Qed.

(** From [NUM_CIRCLES] on the function returns an array of
    [3 * numCircles] entries: the first [NUM_CIRCLES] records, then
    zeros. *)
Lemma generateCircleUniformData_from numCircles draws :
  NUM_CIRCLES <= numCircles ->
  exists uniformData,
    fst (generateCircleUniformData Math_random radiusLimits canvasDimensions
           numCircles draws) = Return uniformData /\
    length uniformData = Z.to_nat (3 * numCircles) /\
    (forall i c, (i < Z.to_nat NUM_CIRCLES)%nat ->
                 generated numCircles draws !! i = Some c ->
                 holds_record uniformData i c) /\
    (forall j, (3 * Z.to_nat NUM_CIRCLES <= j < length uniformData)%nat ->
               uniformData !! j = Some 0%float).
Proof.
  intros Hge. rewrite generateCircleUniformData_unfold.
  unfold new_Float32Array, CIRCLE_ELEMENTS, NUM_CIRCLES in *.
  destruct (Z.ltb_spec (3 * numCircles) 0) as [Hneg|_]; [lia|].
  destruct (pack_loop_returns (Z.to_nat 12) 0 (generated numCircles draws)
              (replicate (Z.to_nat (3 * numCircles)) 0%float))
    as (packed & Hrun & Hlength & Hother & Hrecords).
  { rewrite generated_circles_length. lia. }
  { rewrite length_replicate. lia. }
  rewrite length_replicate in Hlength.
  exists packed. split; [exact Hrun|]. split; [exact Hlength|]. split.
  - intros i c Hi Hc. apply Hrecords; [lia|assumption].
  - intros j Hj. rewrite Hother by lia.
    apply lookup_replicate. split; [reflexivity|lia].
Qed.
End Generator_lemmas.

(** ** generateCircleUniformData: the returned array *)

(** C9: the packing loop runs [NUM_CIRCLES] = 12 times whatever
    [numCircles] is. Above 12 the call returns an array of [3 * numCircles]
    entries in which only the first 12 generated records are written and
    every entry from index 36 on is still 0; below 12 the call throws. *)
Theorem generateCircleUniformData_bounded_by_NUM_CIRCLES :
  forall (Math_random : nat -> float)
         radiusLimits canvasDimensions numCircles draws,
    let result := fst (generateCircleUniformData Math_random radiusLimits
                         canvasDimensions numCircles draws) in
    let circles := generated_circles Math_random radiusLimits canvasDimensions
                     numCircles draws in
    NUM_CIRCLES = 12 /\
    (12 < numCircles ->
     exists uniformData,
       result = Return uniformData /\
       length uniformData = Z.to_nat (3 * numCircles) /\
       length circles = Z.to_nat numCircles /\
       (forall i c, (i < 12)%nat -> circles !! i = Some c ->
                    holds_record uniformData i c) /\
       (forall j, (36 <= j < length uniformData)%nat ->
                  uniformData !! j = Some 0%float)) /\
    (numCircles < 12 -> exists e, result = Throw e).
Proof.
  intros Math_random radiusLimits canvasDimensions numCircles draws
         result circles.
  split; [reflexivity|]. split.
  - intros Hgt.
    destruct (generateCircleUniformData_from Math_random radiusLimits
                canvasDimensions numCircles draws)
      as (uniformData & Hrun & Hlength & Hrecords & Hzero).
    { unfold NUM_CIRCLES. lia. }
    exists uniformData. split; [exact Hrun|]. split; [exact Hlength|].
    split; [apply generated_circles_length|]. split.
    + exact Hrecords.
    + exact Hzero.
  - intros Hlt. subst result.
    rewrite generateCircleUniformData_below by (unfold NUM_CIRCLES; lia).
    destruct (numCircles <? 0)%Z; eauto.
Qed.

(** Thirteen circles on a 100 x 100 canvas, every draw 1/2. *)
Lemma generateCircleUniformData_bounded_by_NUM_CIRCLES_witness :
  exists uniformData,
    fst (generateCircleUniformData (fun _ => 0.5%float)
           {| rl_min := 50%float; rl_max := 4%float |}
           {| cd_width := 100%float; cd_height := 100%float |} 13 0)
      = Return uniformData /\
    uniformData !! 36%nat = Some 0%float.
Proof.
  destruct (generateCircleUniformData_bounded_by_NUM_CIRCLES
              (fun _ => 0.5%float) {| rl_min := 50%float; rl_max := 4%float |}
              {| cd_width := 100%float; cd_height := 100%float |} 13 0)
    as (_ & Habove & _).
  destruct Habove as (uniformData & Hrun & Hlength & _ & _ & Hzero); [lia|].
  exists uniformData. split; [exact Hrun|].
  apply Hzero. rewrite Hlength. vm_compute. lia.
Defined.

(** C1 fails on the code for every count from 0 to 11: the call throws
    where the claim has it return [3 * count] entries. *)
Theorem generateCircleUniformData_throws_below_NUM_CIRCLES :
  forall (Math_random : nat -> float)
         radiusLimits canvasDimensions count draws,
    0 <= count < NUM_CIRCLES ->
    fst (generateCircleUniformData Math_random radiusLimits canvasDimensions
           count draws)
    = Throw (TypeError "Cannot read properties of undefined (reading 'x')") /\
    ~ (exists uniformData,
          fst (generateCircleUniformData Math_random radiusLimits canvasDimensions
                 count draws) = Return uniformData /\
          packs uniformData (generated_circles Math_random radiusLimits
                               canvasDimensions count draws)).
Proof.
  intros Math_random radiusLimits canvasDimensions count draws Hcount.
  assert (Hthrow : fst (generateCircleUniformData Math_random radiusLimits
                          canvasDimensions count draws)
                   = Throw (TypeError "Cannot read properties of undefined (reading 'x')")).
  { rewrite generateCircleUniformData_below by lia.
    destruct (Z.ltb_spec count 0); [lia|reflexivity]. }
  split; [exact Hthrow|].
  intros (uniformData & Hrun & _). rewrite Hthrow in Hrun. discriminate Hrun.
Qed.

Lemma generateCircleUniformData_throws_below_NUM_CIRCLES_witness :
  fst (generateCircleUniformData (fun _ => 0.5%float)
         {| rl_min := 50%float; rl_max := 4%float |}
         {| cd_width := 100%float; cd_height := 100%float |} 0 0)
  = Throw (TypeError "Cannot read properties of undefined (reading 'x')").
Proof.
  apply (generateCircleUniformData_throws_below_NUM_CIRCLES
           (fun _ => 0.5%float) {| rl_min := 50%float; rl_max := 4%float |}
           {| cd_width := 100%float; cd_height := 100%float |} 0 0).
  unfold NUM_CIRCLES. lia.
Defined.

(** C2 fails on the code: the call of the specification's example,
    [generateCircleUniformData(3, {min: 50, max: 4}, {width: 100, height: 100})],
    throws whatever [Math.random] returns; no record comes back. *)
Theorem generateCircleUniformData_three_circles_throws :
  forall (Math_random : nat -> float) draws,
    generateCircleUniformData Math_random
      {| rl_min := 50%float; rl_max := 4%float |}
      {| cd_width := 100%float; cd_height := 100%float |} 3 draws
    = (Throw (TypeError "Cannot read properties of undefined (reading 'x')"),
       (draws + 9)%nat).
Proof.
  intros Math_random draws. unfold generateCircleUniformData.
  rewrite circles_loop_spec. cbn -[draw_circle Nat.mul]. f_equal.
Qed.

(** ** Binary64 arithmetic *)

Section Binary64.
Local Open Scope Z_scope.

Lemma rne_cases N D :
  0 < D ->
  exists q r, N = q * D + r /\ 0 <= r < D /\
    ((2 * r < D /\ rne N D = q) \/
     (D < 2 * r /\ rne N D = q + 1) \/
     (2 * r = D /\ Z.even q = true /\ rne N D = q) \/
     (2 * r = D /\ Z.even q = false /\ rne N D = q + 1)).
Proof.
  intros HD. exists (N / D), (N mod D).
  pose proof (Z.div_mod N D ltac:(lia)) as Hdm.
  pose proof (Z.mod_pos_bound N D HD) as Hr.
  split; [lia|]. split; [lia|].
  unfold rne.
  destruct (Z.ltb_spec (2 * (N mod D)) D); [left; lia|].
  destruct (Z.ltb_spec D (2 * (N mod D))); [right; left; lia|].
  destruct (Z.even (N / D)) eqn:E; [right; right; left|right; right; right]; lia.
Qed.

Lemma rne_mono N1 D1 N2 D2 :
  0 < D1 -> 0 < D2 -> N1 * D2 <= N2 * D1 -> rne N1 D1 <= rne N2 D2.
Proof.
  intros H1 H2 Hle.
  destruct (rne_cases N1 D1 H1) as (q1 & r1 & E1 & Hr1 & C1).
  destruct (rne_cases N2 D2 H2) as (q2 & r2 & E2 & Hr2 & C2).
  assert (Hq : q1 <= q2).
  { destruct (Z.le_gt_cases q1 q2) as [H|H]; [exact H|exfalso].
    assert (0 <= (q1 - q2 - 1) * (D1 * D2)) by (apply Z.mul_nonneg_nonneg; nia).
    assert (r2 * D1 < D2 * D1) by nia.
    assert (0 <= r1 * D2) by nia.
    subst N1 N2. nia. }
  destruct (Z.eq_dec q1 q2) as [->|Hne].
  - assert (Hr : r1 * D2 <= r2 * D1) by nia.
    destruct C1 as [[? ->]|[[? ->]|[(? & ? & ->)|(? & ? & ->)]]];
    destruct C2 as [[? ->]|[[? ->]|[(? & ? & ->)|(? & ? & ->)]]];
      try lia; try nia; try congruence.
  - destruct C1 as [[? ->]|[[? ->]|[(? & ? & ->)|(? & ? & ->)]]];
    destruct C2 as [[? ->]|[[? ->]|[(? & ? & ->)|(? & ? & ->)]]]; lia.
Qed.

Lemma rne_eq N1 D1 N2 D2 :
  0 < D1 -> 0 < D2 -> N1 * D2 = N2 * D1 -> rne N1 D1 = rne N2 D2.
Proof.
  intros H1 H2 E. apply Z.le_antisymm; apply rne_mono; lia.
Qed.

Lemma rne_exact k D : 0 < D -> rne (k * D) D = k.
Proof.
  intros HD. unfold rne. rewrite Z.div_mul, Z.mod_mul by lia.
  destruct (Z.ltb_spec (2 * 0) D); [reflexivity|lia].
Qed.

Lemma rne_le_int N D k : 0 < D -> N <= k * D -> rne N D <= k.
Proof.
  intros HD H. rewrite <- (rne_exact k D HD). apply rne_mono; nia.
Qed.

Lemma rne_ge_int N D k : 0 < D -> k * D <= N -> k <= rne N D.
Proof.
  intros HD H. rewrite <- (rne_exact k D HD). apply rne_mono; nia.
Qed.

Lemma cexp_nonneg q : 0 <= cexp q.
Proof. unfold cexp. lia. Qed.

Lemma cexp_mono q1 q2 : q1 <= q2 -> cexp q1 <= cexp q2.
Proof.
  intros H. unfold cexp. pose proof (Z.log2_le_mono q1 q2 H). lia.
Qed.

(** Within the binade [j = cexp q], [2^(52+j) <= q < 2^(53+j)], unless
    [j = 0], where only the upper bound remains. *)
Lemma cexp_upper q : 0 <= q -> q < 2 ^ (53 + cexp q).
Proof.
  intros Hq. unfold cexp.
  destruct (Z.eq_dec q 0) as [->|Hne].
  - cbn. lia.
  - pose proof (Z.log2_spec q ltac:(lia)) as [_ Hup].
    eapply Z.lt_le_trans; [exact Hup|].
    apply Z.pow_le_mono_r; lia.
Qed.

Lemma cexp_lower q : 0 < cexp q -> 2 ^ (52 + cexp q) <= q.
Proof.
  unfold cexp. intros Hj.
  assert (Hq : 0 < q).
  { destruct (Z.le_gt_cases q 0) as [H|H]; [|exact H].
    rewrite (Z.log2_nonpos q H) in Hj. lia. }
  pose proof (Z.log2_spec q Hq) as [Hlo _].
  replace (52 + Z.max 0 (Z.log2 q - 52)) with (Z.log2 q) by lia. exact Hlo.
Qed.

Lemma rnd_mono N1 D1 N2 D2 :
  0 <= N1 -> 0 < D1 -> 0 < D2 -> N1 * D2 <= N2 * D1 -> rnd N1 D1 <= rnd N2 D2.
Proof.
  intros HN1 H1 H2 Hle. unfold rnd.
  assert (HN2 : 0 <= N2) by nia.
  assert (Hq : N1 / D1 <= N2 / D2).
  { apply Z.div_le_lower_bound; [lia|].
    pose proof (Z.mul_div_le N1 D1 H1).
    apply Z.div_le_lower_bound || idtac.
    assert (D1 * (N1 / D1) * D2 <= N2 * D1) by nia.
    assert (Hx : D2 * (N1 / D1) <= N2) by nia. exact Hx. }
  set (j1 := cexp (N1 / D1)). set (j2 := cexp (N2 / D2)).
  assert (Hj : j1 <= j2) by (apply cexp_mono; exact Hq).
  pose proof (cexp_nonneg (N1 / D1)) as Hj1. fold j1 in Hj1.
  assert (P1 : 0 < 2 ^ j1) by (apply Z.pow_pos_nonneg; lia).
  assert (P2 : 0 < 2 ^ j2) by (apply Z.pow_pos_nonneg; lia).
  destruct (Z.eq_dec j1 j2) as [E|Hne].
  - rewrite <- E. apply Z.mul_le_mono_nonneg_r; [lia|].
    apply rne_mono; nia.
  - (* different binades *)
    assert (Hup : N1 / D1 < 2 ^ (53 + j1)).
    { apply cexp_upper. apply Z.div_pos; lia. }
    assert (Hlo : 2 ^ (52 + j2) <= N2 / D2) by (apply cexp_lower; lia).
    assert (B1 : rne N1 (D1 * 2 ^ j1) <= 2 ^ 53).
    { apply rne_le_int; [nia|].
      assert (N1 < 2 ^ (53 + j1) * D1).
      { pose proof (Z.mul_succ_div_gt N1 D1 H1). nia. }
      rewrite Z.pow_add_r in H by lia. nia. }
    assert (B2 : 2 ^ 52 <= rne N2 (D2 * 2 ^ j2)).
    { apply rne_ge_int; [nia|].
      assert (2 ^ (52 + j2) * D2 <= N2).
      { pose proof (Z.mul_div_le N2 D2 H2). nia. }
      rewrite Z.pow_add_r in H by lia. nia. }
    assert (Hpow : 2 ^ 53 * 2 ^ j1 <= 2 ^ 52 * 2 ^ j2).
    { rewrite <- !Z.pow_add_r by lia. apply Z.pow_le_mono_r; lia. }
    nia.
Qed.

Lemma rnd_eq N1 D1 N2 D2 :
  0 <= N1 -> 0 < D1 -> 0 < D2 -> N1 * D2 = N2 * D1 -> rnd N1 D1 = rnd N2 D2.
Proof.
  intros HN H1 H2 E. apply Z.le_antisymm; apply rnd_mono; nia.
Qed.

Lemma rnd_id k D : Fmt k -> 0 < D -> rnd (k * D) D = k.
Proof.
  intros (m & j0 & Hj0 & Hm & ->) HD. unfold rnd.
  rewrite Z.div_mul by lia.
  set (j := cexp (m * 2 ^ j0)).
  assert (Hj : 0 <= j) by apply cexp_nonneg.
  assert (Hjj : j <= j0).
  { destruct (Z.eq_dec j 0) as [->|Hne]; [lia|].
    pose proof (cexp_lower (m * 2 ^ j0) ltac:(fold j; lia)) as Hlo. fold j in Hlo.
    destruct (Z.le_gt_cases j j0) as [H|H]; [exact H|exfalso].
    assert (2 ^ 53 * 2 ^ j0 <= 2 ^ (52 + j)).
    { rewrite <- Z.pow_add_r by lia. apply Z.pow_le_mono_r; lia. }
    assert (0 < 2 ^ j0) by (apply Z.pow_pos_nonneg; lia). nia. }
  assert (E : 2 ^ j0 = 2 ^ (j0 - j) * 2 ^ j).
  { rewrite <- Z.pow_add_r by lia. f_equal. lia. }
  assert (P : 0 < 2 ^ j) by (apply Z.pow_pos_nonneg; lia).
  replace (m * 2 ^ j0 * D) with ((m * 2 ^ (j0 - j)) * (D * 2 ^ j)) by (rewrite E; ring).
  rewrite rne_exact by nia. rewrite E. ring.
Qed.

Lemma fexp64 e : fexp prec emax e = Z.max (e - 53) (-1074).
Proof. reflexivity. Qed.

Lemma digits2_pos_spec p :
  2 ^ (Zpos (digits2_pos p) - 1) <= Zpos p < 2 ^ Zpos (digits2_pos p).
Proof.
  induction p as [p IH|p IH|]; cbn [digits2_pos].
  - rewrite Pos2Z.inj_succ. change (Zpos p~1) with (2 * Zpos p + 1).
    set (d := Zpos (digits2_pos p)) in *. assert (1 <= d) by (subst d; lia).
    replace (Z.succ d - 1) with (d - 1 + 1) by lia.
    replace (Z.succ d) with (d + 1) by lia.
    rewrite !Z.pow_add_r by lia. change (2 ^ 1) with 2. lia.
  - rewrite Pos2Z.inj_succ. change (Zpos p~0) with (2 * Zpos p).
    set (d := Zpos (digits2_pos p)) in *. assert (1 <= d) by (subst d; lia).
    replace (Z.succ d - 1) with (d - 1 + 1) by lia.
    replace (Z.succ d) with (d + 1) by lia.
    rewrite !Z.pow_add_r by lia. change (2 ^ 1) with 2. lia.
  - cbn. lia.
Qed.

Lemma Zdigits2_spec m :
  0 <= m ->
  (m = 0 /\ Zdigits2 m = 0) \/
  (0 < m /\ 1 <= Zdigits2 m /\ 2 ^ (Zdigits2 m - 1) <= m < 2 ^ Zdigits2 m).
Proof.
  destruct m as [|p|p]; intros H; [left; auto| |lia].
  right. cbn [Zdigits2]. pose proof (digits2_pos_spec p). lia.
Qed.

Lemma Zdigits2_log2 m : 0 < m -> Zdigits2 m = Z.log2 m + 1.
Proof.
  intros Hm. destruct (Zdigits2_spec m ltac:(lia)) as [[? _]|(_ & Hd & Hb)]; [lia|].
  assert (Z.log2 m = Zdigits2 m - 1); [|lia].
  apply Z.log2_unique; [lia|].
  replace (Z.succ (Zdigits2 m - 1)) with (Zdigits2 m) by lia. exact Hb.
Qed.

Lemma Zdigits2_unique m d : 0 < m -> 2 ^ (d - 1) <= m < 2 ^ d -> Zdigits2 m = d.
Proof.
  intros Hm Hb. rewrite Zdigits2_log2 by exact Hm.
  assert (Hd : 1 <= d).
  { destruct (Z.le_gt_cases 1 d) as [H|H]; [exact H|exfalso].
    destruct (Z.eq_dec d 0) as [->|Hne]; [cbn in Hb; lia|].
    rewrite (Z.pow_neg_r 2 d) in Hb by lia. lia. }
  assert (Z.log2 m = d - 1); [|lia].
  apply Z.log2_unique; [lia|].
  replace (Z.succ (d - 1)) with d by lia. exact Hb.
Qed.

(** ** The shift-right record locates a rational *)

(** Case analysis on the integer comparisons of the goal, then on those
    of the hypotheses. *)
Ltac compare_in_goal :=
  match goal with
  | |- context [(?x =? ?y)%Z] => destruct (Z.eqb_spec x y)
  | |- context [(?x <=? ?y)%Z] => destruct (Z.leb_spec x y)
  | |- context [(?x <? ?y)%Z] => destruct (Z.ltb_spec x y)
  end.

Ltac compare_in_hyp :=
  match goal with
  | Hyp : context [(?x =? ?y)%Z] |- _ => destruct (Z.eqb_spec x y)
  | Hyp : context [(?x <=? ?y)%Z] |- _ => destruct (Z.leb_spec x y)
  | Hyp : context [(?x <? ?y)%Z] |- _ => destruct (Z.ltb_spec x y)
  end.

Ltac bool_cases := repeat compare_in_goal; repeat compare_in_hyp.

Lemma located_exact m : 0 <= m -> located m 1 (shr_record_of_loc m loc_Exact).
Proof.
  intros Hm. unfold located; cbn.
  repeat split; try lia; bool_cases; cbn; try reflexivity; lia.
Qed.

Lemma located_m A B mrs : 0 < B -> located A B mrs -> shr_m mrs = A / B.
Proof.
  intros HB (Hm & HA & _). apply Z.div_unique with (A - shr_m mrs * B); lia.
Qed.

Lemma shr_1_located A B mrs :
  0 < B -> located A B mrs -> located A (2 * B) (shr_1 mrs).
Proof.
  intros HB. destruct mrs as [m r s]. unfold located; cbn [shr_m shr_r shr_s].
  intros (Hm & HA & Hr & Hs).
  destruct m as [|[p|p|]|p]; cbn [shr_1 shr_m shr_r shr_s]; try lia;
    try change (Zpos p~1) with (2 * Zpos p + 1) in *;
    try change (Zpos p~0) with (2 * Zpos p) in *;
    (split; [lia|]); (split; [lia|]); subst r s;
    (split; bool_cases; cbn; try reflexivity; try lia).
Qed.

Lemma iter_pos_shr_1_located n : forall A B mrs,
  0 < B -> located A B mrs ->
  located A (B * 2 ^ Zpos n) (SpecFloat.iter_pos shr_1 n mrs).
Proof.
  induction n as [n IH|n IH|]; intros A B mrs HB Hloc; cbn [SpecFloat.iter_pos].
  - assert (P : 0 < 2 ^ Zpos n) by (apply Z.pow_pos_nonneg; lia).
    replace (B * 2 ^ Zpos n~1) with (2 * B * 2 ^ Zpos n * 2 ^ Zpos n).
    + apply IH; [nia|]. apply IH; [lia|]. apply shr_1_located; assumption.
    + change (Zpos n~1) with (2 * Zpos n + 1).
      rewrite Z.pow_add_r, Z.pow_mul_r by lia.
      change (2 ^ 2) with 4. change (2 ^ 1) with 2.
      replace (4 ^ Zpos n) with (2 ^ Zpos n * 2 ^ Zpos n); [ring|].
      rewrite <- Z.pow_mul_l. reflexivity.
  - assert (P : 0 < 2 ^ Zpos n) by (apply Z.pow_pos_nonneg; lia).
    replace (B * 2 ^ Zpos n~0) with (B * 2 ^ Zpos n * 2 ^ Zpos n).
    + apply IH; [nia|]. apply IH; assumption.
    + change (Zpos n~0) with (2 * Zpos n). rewrite Z.pow_mul_r by lia.
      change (2 ^ 2) with 4.
      replace (4 ^ Zpos n) with (2 ^ Zpos n * 2 ^ Zpos n); [ring|].
      rewrite <- Z.pow_mul_l. reflexivity.
  - change (2 ^ 1) with 2. replace (B * 2) with (2 * B) by ring.
    apply shr_1_located; assumption.
Qed.

(** Shifting right by [n >= 0] positions. *)
Lemma shr_located A B mrs e n :
  0 < B -> 0 <= n -> located A B mrs ->
  located A (B * 2 ^ n) (fst (shr mrs e n)) /\ snd (shr mrs e n) = e + n.
Proof.
  intros HB Hn Hloc. destruct n as [|p|p]; cbn [shr fst snd]; try lia.
  - rewrite Z.mul_1_r. split; [exact Hloc|lia].
  - split; [|reflexivity]. apply iter_pos_shr_1_located; assumption.
Qed.

Lemma located_rne A B mrs :
  0 < B -> located A B mrs ->
  round_nearest_even (shr_m mrs) (loc_of_shr_record mrs) = rne A B.
Proof.
  intros HB Hloc. pose proof (located_m A B mrs HB Hloc) as Em.
  destruct Hloc as (Hm & HA & Hr & Hs).
  assert (Er : A mod B = A - shr_m mrs * B).
  { symmetry. apply Z.mod_unique with (shr_m mrs); lia. }
  destruct mrs as [m r s]. cbn [shr_m shr_r shr_s] in *.
  unfold rne. rewrite Er, <- Em. subst r s.
  unfold loc_of_shr_record, round_nearest_even.
  bool_cases; cbn; try reflexivity; try lia.
Qed.

Lemma shr_m_of_loc m l : shr_m (shr_record_of_loc m l) = m.
Proof. destruct l as [|[]]; reflexivity. Qed.

Lemma pow2_pos k : 0 <= k -> 0 < 2 ^ k.
Proof. intros. apply Z.pow_pos_nonneg; lia. Qed.

Lemma pow2_le a b : 0 <= a <= b -> 2 ^ a <= 2 ^ b.
Proof. intros. apply Z.pow_le_mono_r; lia. Qed.

Lemma pow2_split a b : 0 <= a -> 0 <= b -> 2 ^ (a + b) = 2 ^ a * 2 ^ b.
Proof. intros. apply Z.pow_add_r; lia. Qed.

Lemma shr_nonpos mrs e n : n <= 0 -> shr mrs e n = (mrs, e).
Proof. destruct n; [reflexivity|lia|reflexivity]. Qed.

(** The rounded mantissa: at most [2^53], and at least [2^52] above the
    subnormal exponent. *)
Lemma rounded_mantissa_bounds A B mx ex lx :
  0 < B -> located A B (shr_record_of_loc mx lx) ->
  let t := fexp prec emax (Zdigits2 mx + ex) in
  ex <= t ->
  let M := rne A (B * 2 ^ (t - ex)) in
  0 <= M <= 2 ^ 53 /\ (-1074 < t -> 2 ^ 52 <= M).
Proof.
  intros HB Hloc t Ht M.
  pose proof Hloc as (Hm & HA & _). rewrite shr_m_of_loc in Hm, HA.
  subst M. assert (Et : t = Z.max (Zdigits2 mx + ex - 53) (-1074)) by reflexivity.
  clearbody t. set (d := Zdigits2 mx) in *.
  assert (Pn : 0 < 2 ^ (t - ex)) by (apply pow2_pos; lia).
  assert (HA0 : 0 <= A) by nia.
  destruct (Zdigits2_spec mx Hm) as [[E0 Ed]|(Hpos & Hd1 & Hd)];
    fold d in Ed || fold d in Hd1, Hd; clearbody d.
  - (* nothing above the fractional part *)
    subst mx. assert (Et' : t = -1074) by lia.
    split; [split|lia].
    + apply rne_ge_int; nia.
    + apply rne_le_int; [nia|].
      assert (1 <= 2 ^ 53) by (apply (pow2_le 0 53); lia). nia.
  - split; [split|].
    + apply rne_ge_int; nia.
    + apply rne_le_int; [nia|].
      assert (2 ^ d <= 2 ^ 53 * 2 ^ (t - ex)).
      { rewrite <- pow2_split by lia. apply pow2_le. lia. }
      nia.
    + intros Hsub. assert (En : t - ex = d - 53) by lia.
      apply rne_ge_int; [nia|].
      assert (2 ^ 52 * 2 ^ (t - ex) = 2 ^ (d - 1)).
      { rewrite <- pow2_split by lia. f_equal. lia. }
      nia.
Qed.

Lemma binary_round_aux_val sx mx ex lx A B :
  0 < B -> located A B (shr_record_of_loc mx lx) ->
  let t := fexp prec emax (Zdigits2 mx + ex) in
  ex <= t ->
  let V := rne A (B * 2 ^ (t - ex)) * 2 ^ (t + 1074) in
  V < 2 ^ 2098 ->
  SFval (binary_round_aux prec emax sx mx ex lx) = Some (cond_Zopp sx V).
Proof.
  intros HB Hloc t Ht V HV.
  destruct (rounded_mantissa_bounds A B mx ex lx HB Hloc Ht) as [HM Hnormal].
  fold t in HM, Hnormal. set (M := rne A (B * 2 ^ (t - ex))) in *.
  assert (Htmin : -1074 <= t) by (subst t; rewrite fexp64; lia).
  unfold binary_round_aux, shr_fexp. fold t. clearbody t.
  destruct (shr_located A B (shr_record_of_loc mx lx) ex (t - ex) HB ltac:(lia) Hloc)
    as [Hloc' He'].
  destruct (shr (shr_record_of_loc mx lx) ex (t - ex)) as [mrs' e'].
  cbn [fst snd] in Hloc', He'.
  assert (Pn : 0 < 2 ^ (t - ex)) by (apply pow2_pos; lia).
  rewrite (located_rne A (B * 2 ^ (t - ex)) mrs' ltac:(nia) Hloc'). fold M.
  replace e' with t by lia.
  assert (Pt : 0 < 2 ^ (t + 1074)) by (apply pow2_pos; lia).
  (* the exponent of an overflow-free result *)
  assert (Hexp : 0 < M -> t <= 971).
  { intros HMpos. destruct (Z.le_gt_cases t 971) as [H|H]; [exact H|exfalso].
    specialize (Hnormal ltac:(lia)).
    assert (2 ^ 2098 <= 2 ^ 52 * 2 ^ (t + 1074)).
    { rewrite <- pow2_split by lia. apply pow2_le. lia. }
    subst V. nia. }
  destruct (Z.eq_dec M 0) as [E0|Hne0].
  - rewrite E0. cbn [Zdigits2]. rewrite fexp64.
    rewrite shr_nonpos by lia. cbn.
    subst V; rewrite E0; destruct sx; reflexivity.
  - destruct (Z.eq_dec M (2 ^ 53)) as [E53|Hne53].
    + rewrite E53. change (Zdigits2 (2 ^ 53)) with 54. rewrite fexp64.
      replace (Z.max (54 + t - 53) (-1074) - t) with 1 by lia.
      cbn [shr_record_of_loc shr SpecFloat.iter_pos].
      change (shr_1 {| shr_m := 2 ^ 53; shr_r := false; shr_s := false |})
        with {| shr_m := 2 ^ 52; shr_r := false; shr_s := false |}.
      cbn [shr_m]. change (2 ^ 52) with (Zpos (Z.to_pos (2 ^ 52))).
      cbv iota beta.
      assert (Ht1 : t + 1 <= 971).
      { destruct (Z.le_gt_cases (t + 1) 971) as [H|H]; [exact H|exfalso].
        assert (2 ^ 2098 <= 2 ^ 53 * 2 ^ (t + 1074)).
        { rewrite <- pow2_split by lia. apply pow2_le. lia. }
        subst V. rewrite E53 in HV. nia. }
      change (emax - prec) with 971.
      destruct (Z.leb_spec (t + 1) 971); [|lia].
      cbn [SFval]. f_equal. f_equal. subst V. rewrite E53.
      change (Zpos (Z.to_pos (2 ^ 52))) with (2 ^ 52).
      replace (t + 1 + 1074) with (1 + (t + 1074)) by lia.
      rewrite pow2_split by lia. change (2 ^ 53) with (2 ^ 52 * 2 ^ 1). ring.
    + assert (HMlt : 0 < M < 2 ^ 53) by lia.
      destruct (Zdigits2_spec M ltac:(lia)) as [[? _]|(_ & Hd1 & Hd)]; [lia|].
      assert (HdM : Zdigits2 M <= 53).
      { destruct (Z.le_gt_cases (Zdigits2 M) 53) as [H|H]; [exact H|exfalso].
        assert (2 ^ 53 <= 2 ^ (Zdigits2 M - 1)) by (apply pow2_le; lia). lia. }
      rewrite fexp64. rewrite shr_nonpos by lia.
      cbn [shr_record_of_loc shr_m].
      specialize (Hexp ltac:(lia)). subst V.
      destruct M as [|pM|pM]; [lia| |lia].
      change (emax - prec) with 971.
      destruct (Z.leb_spec t 971); [|lia].
      cbn [SFval]. reflexivity.
Qed.

Lemma binary_round_aux_overflow sx mx ex lx A B :
  0 < B -> located A B (shr_record_of_loc mx lx) ->
  let t := fexp prec emax (Zdigits2 mx + ex) in
  ex <= t ->
  let V := rne A (B * 2 ^ (t - ex)) * 2 ^ (t + 1074) in
  2 ^ 2098 <= V ->
  binary_round_aux prec emax sx mx ex lx = S754_infinity sx.
Proof.
  intros HB Hloc t Ht V HV.
  destruct (rounded_mantissa_bounds A B mx ex lx HB Hloc Ht) as [HM Hnormal].
  fold t in HM, Hnormal. set (M := rne A (B * 2 ^ (t - ex))) in *.
  assert (Htmin : -1074 <= t) by (subst t; rewrite fexp64; lia).
  unfold binary_round_aux, shr_fexp. fold t. clearbody t.
  destruct (shr_located A B (shr_record_of_loc mx lx) ex (t - ex) HB ltac:(lia) Hloc)
    as [Hloc' He'].
  destruct (shr (shr_record_of_loc mx lx) ex (t - ex)) as [mrs' e'].
  cbn [fst snd] in Hloc', He'.
  assert (Pn : 0 < 2 ^ (t - ex)) by (apply pow2_pos; lia).
  rewrite (located_rne A (B * 2 ^ (t - ex)) mrs' ltac:(nia) Hloc'). fold M.
  replace e' with t by lia.
  assert (Pt : 0 < 2 ^ (t + 1074)) by (apply pow2_pos; lia).
  assert (P98 : 0 < 2 ^ 2098) by (apply pow2_pos; lia).
  assert (HM0 : 0 < M) by (subst V; nia).
  destruct (Z.eq_dec M (2 ^ 53)) as [E53|Hne53].
  - rewrite E53. change (Zdigits2 (2 ^ 53)) with 54. rewrite fexp64.
    replace (Z.max (54 + t - 53) (-1074) - t) with 1 by lia.
    cbn [shr_record_of_loc shr SpecFloat.iter_pos].
    change (shr_1 {| shr_m := 2 ^ 53; shr_r := false; shr_s := false |})
      with {| shr_m := 2 ^ 52; shr_r := false; shr_s := false |}.
    cbn [shr_m]. change (2 ^ 52) with (Zpos (Z.to_pos (2 ^ 52))).
    cbv iota beta.
    assert (Ht1 : 971 < t + 1).
    { destruct (Z.lt_ge_cases 971 (t + 1)) as [H|H]; [exact H|exfalso].
      assert (2 ^ 53 * 2 ^ (t + 1074) < 2 ^ 2098).
      { rewrite <- pow2_split by lia. apply Z.pow_lt_mono_r; lia. }
      subst V. rewrite E53 in HV. lia. }
    change (emax - prec) with 971.
    destruct (Z.leb_spec (t + 1) 971); [lia|reflexivity].
  - assert (HMlt : 0 < M < 2 ^ 53) by lia.
    destruct (Zdigits2_spec M ltac:(lia)) as [[? _]|(_ & Hd1 & Hd)]; [lia|].
    assert (HdM : Zdigits2 M <= 53).
    { destruct (Z.le_gt_cases (Zdigits2 M) 53) as [H|H]; [exact H|exfalso].
      assert (2 ^ 53 <= 2 ^ (Zdigits2 M - 1)) by (apply pow2_le; lia). lia. }
    rewrite fexp64. rewrite shr_nonpos by lia.
    cbn [shr_record_of_loc shr_m].
    assert (Ht1 : 971 < t).
    { destruct (Z.lt_ge_cases 971 t) as [H|H]; [exact H|exfalso].
      assert (2 ^ 53 * 2 ^ (t + 1074) <= 2 ^ 2098).
      { rewrite <- pow2_split by lia. apply pow2_le; lia. }
      subst V. nia. }
    destruct M as [|pM|pM]; [lia| |lia].
    change (emax - prec) with 971.
    destruct (Z.leb_spec t 971); [lia|reflexivity].
Qed.

Lemma log2_between q a : 1 <= a -> 2 ^ (a - 1) <= q < 2 ^ a -> Z.log2 q = a - 1.
Proof.
  intros Ha Hq. apply Z.log2_unique; [lia|].
  replace (Z.succ (a - 1)) with a by lia. exact Hq.
Qed.

(** The binade of a rational between two powers of two. *)
Lemma cexp_between N D a :
  0 < D -> 0 <= N ->
  (1 <= a -> 2 ^ (a - 1) * D <= N) ->
  (0 <= a -> N < 2 ^ a * D) ->
  (a < 0 -> N < D) ->
  cexp (N / D) = Z.max 0 (a - 53).
Proof.
  intros HD HN Hlo Hup Hneg. unfold cexp.
  destruct (Z.le_gt_cases 1 a) as [Ha|Ha].
  - rewrite (log2_between (N / D) a Ha); [lia|]. split.
    + apply Z.div_le_lower_bound; [lia|]. specialize (Hlo Ha). lia.
    + apply Z.div_lt_upper_bound; [lia|]. specialize (Hup ltac:(lia)). lia.
  - assert (E : N / D = 0).
    { apply Z.div_small. split; [lia|].
      destruct (Z.eq_dec a 0) as [->|Hne].
      - specialize (Hup ltac:(lia)). cbn in Hup. lia.
      - apply Hneg. lia. }
    rewrite E. cbn. lia.
Qed.

(** The value computed from a located mantissa is the rounding of any
    rational equal to it: [N / D = (A / B) * 2^(ex + 1074)], written with
    the two non-negative exponents [c1], [c2]. *)
Lemma rnd_bridge A B N D mx ex c1 c2 :
  0 < B -> 0 < D -> 0 <= N -> 0 <= mx ->
  mx * B <= A < (mx + 1) * B ->
  0 <= c1 -> 0 <= c2 -> c2 - c1 = ex + 1074 ->
  N * B * 2 ^ c1 = A * D * 2 ^ c2 ->
  let t := Z.max (Zdigits2 mx + ex - 53) (-1074) in
  ex <= t ->
  rnd N D = rne A (B * 2 ^ (t - ex)) * 2 ^ (t + 1074).
Proof.
  intros HB HD HN Hmx HA Hc1 Hc2 Hc E t Ht.
  assert (Et : t = Z.max (Zdigits2 mx + ex - 53) (-1074)) by reflexivity.
  clearbody t.
  assert (P1 : 0 < 2 ^ c1) by (apply pow2_pos; lia).
  assert (P2 : 0 < 2 ^ c2) by (apply pow2_pos; lia).
  assert (Pn : 0 < 2 ^ (t - ex)) by (apply pow2_pos; lia).
  assert (Pj : 0 < 2 ^ (t + 1074)) by (apply pow2_pos; lia).
  assert (Ej : cexp (N / D) = t + 1074).
  { set (d := Zdigits2 mx) in *.
    rewrite (cexp_between N D (d + ex + 1074)); try lia.
    - (* lower bound *)
      intros Ha.
      destruct (Zdigits2_spec mx Hmx) as [[E0 Ed]|(Hpos & Hd1 & Hd)];
        fold d in Ed || fold d in Hd1, Hd; [lia|].
      assert (Hp : 2 ^ (d + ex + 1074 - 1) * 2 ^ c1 = 2 ^ (d - 1) * 2 ^ c2).
      { rewrite <- !pow2_split by lia. f_equal. lia. }
      assert (2 ^ (d - 1) * B <= A) by nia.
      assert (0 < 2 ^ (d + ex + 1074 - 1)) by (apply pow2_pos; lia).
      assert (0 < 2 ^ (d - 1)) by (apply pow2_pos; lia).
      assert ((2 ^ (d + ex + 1074 - 1) * D) * (2 ^ c1 * B) <= N * (2 ^ c1 * B)); [|nia].
      replace (2 ^ (d + ex + 1074 - 1) * D * (2 ^ c1 * B))
        with (2 ^ (d + ex + 1074 - 1) * 2 ^ c1 * (D * B)) by ring.
      rewrite Hp. nia.
    - (* upper bound *)
      intros Ha.
      assert (Hd0 : 0 <= d).
      { destruct (Zdigits2_spec mx Hmx) as [[_ Ed]|(_ & Hd1 & _)]; fold d in Ed || fold d in Hd1; lia. }
      assert (HAup : A < 2 ^ d * B).
      { destruct (Zdigits2_spec mx Hmx) as [[E0 Ed]|(Hpos & Hd1 & Hd)];
          fold d in Ed || fold d in Hd1, Hd.
        - rewrite Ed. cbn. lia.
        - nia. }
      assert (Hp : 2 ^ (d + ex + 1074) * 2 ^ c1 = 2 ^ d * 2 ^ c2).
      { rewrite <- !pow2_split by lia. f_equal. lia. }
      assert (N * (2 ^ c1 * B) < (2 ^ (d + ex + 1074) * D) * (2 ^ c1 * B)); [|nia].
      replace (2 ^ (d + ex + 1074) * D * (2 ^ c1 * B))
        with (2 ^ (d + ex + 1074) * 2 ^ c1 * (D * B)) by ring.
      rewrite Hp. nia.
    - (* below one unit *)
      intros Ha.
      assert (Hd0 : 0 <= d).
      { destruct (Zdigits2_spec mx Hmx) as [[_ Ed]|(_ & Hd1 & _)]; fold d in Ed || fold d in Hd1; lia. }
      assert (HAup : A < 2 ^ d * B).
      { destruct (Zdigits2_spec mx Hmx) as [[E0 Ed]|(Hpos & Hd1 & Hd)];
          fold d in Ed || fold d in Hd1, Hd.
        - rewrite Ed. cbn. lia.
        - nia. }
      assert (Hp : 2 ^ c1 = 2 ^ (- (d + ex + 1074)) * (2 ^ d * 2 ^ c2)).
      { rewrite <- !pow2_split by lia. f_equal. lia. }
      assert (1 <= 2 ^ (- (d + ex + 1074))) by (apply (pow2_le 0); lia).
      assert (0 < 2 ^ d) by (apply pow2_pos; lia).
      assert (N * (2 ^ c1 * B) < D * (2 ^ c1 * B)); [|nia].
      replace (N * (2 ^ c1 * B)) with (A * D * 2 ^ c2) by lia.
      rewrite Hp.
      assert (H1 : A * D * 2 ^ c2 < 2 ^ d * B * D * 2 ^ c2).
      { apply Z.mul_lt_mono_pos_r; [lia|]. apply Z.mul_lt_mono_pos_r; lia. }
      assert (H2 : 0 < 2 ^ d * B * D * 2 ^ c2) by nia.
      set (K := 2 ^ (- (d + ex + 1074))) in *.
      replace (D * (K * (2 ^ d * 2 ^ c2) * B))
        with (K * (2 ^ d * B * D * 2 ^ c2)) by ring.
      nia. }
  unfold rnd. rewrite Ej. f_equal.
  apply rne_eq; [nia|nia|].
  assert (Hp : 2 ^ (t - ex) * 2 ^ c2 = 2 ^ (t + 1074) * 2 ^ c1).
  { rewrite <- !pow2_split by lia. f_equal. lia. }
  assert (N * (B * 2 ^ (t - ex)) * 2 ^ c2 = A * (D * 2 ^ (t + 1074)) * 2 ^ c2); [|nia].
  replace (N * (B * 2 ^ (t - ex)) * 2 ^ c2) with (N * B * (2 ^ (t - ex) * 2 ^ c2)) by ring.
  rewrite Hp. nia.
Qed.

Lemma valid_finite s m e :
  valid (S754_finite s m e) ->
  -1074 <= e <= 971 /\
  Zpos (digits2_pos m) <= 53 /\
  (Zpos (digits2_pos m) = 53 \/ e = -1074) /\
  Zpos m < 2 ^ 53.
Proof.
  unfold valid, SpecFloat.valid_binary, bounded, canonical_mantissa. rewrite fexp64.
  change (emax - prec) with 971.
  intros H. apply andb_prop in H as [H1 H2].
  apply Z.eqb_eq in H1. apply Z.leb_le in H2.
  pose proof (digits2_pos_spec m) as Hd.
  assert (Zpos (digits2_pos m) <= 53) by lia.
  repeat split; try lia.
  eapply Z.lt_le_trans; [apply Hd|]. apply pow2_le. lia.
Qed.

Lemma rnd_zero D : 0 < D -> rnd 0 D = 0.
Proof. intros. apply (rnd_id 0 D); [|assumption]. exists 0, 0. cbn. lia. Qed.

(** The magnitude of a valid finite number is in the format. *)
Lemma valid_Fmt s m e :
  valid (S754_finite s m e) -> Fmt (Zpos m * 2 ^ (e + 1074)).
Proof.
  intros Hv. destruct (valid_finite s m e Hv) as (He & _ & _ & Hm).
  exists (Zpos m), (e + 1074). lia.
Qed.

Lemma Zdigits2_mul_pow2 M k :
  0 < M -> 0 <= k -> Zdigits2 (M * 2 ^ k) = Zdigits2 M + k.
Proof.
  intros HM Hk.
  destruct (Zdigits2_spec M ltac:(lia)) as [[? _]|(_ & Hd1 & Hd)]; [lia|].
  assert (P : 0 < 2 ^ k) by (apply pow2_pos; lia).
  apply Zdigits2_unique; [nia|].
  replace (Zdigits2 M + k - 1) with (Zdigits2 M - 1 + k) by lia.
  rewrite !pow2_split by lia. nia.
Qed.

Lemma pos_iter_xO m d : Zpos (Pos.iter xO m d) = Zpos m * 2 ^ Zpos d.
Proof.
  induction d as [|d IH] using Pos.peano_ind.
  - cbn [Pos.iter]. change (2 ^ 1) with 2. lia.
  - rewrite Pos.iter_succ, Pos2Z.inj_succ, Z.pow_succ_r by lia.
    change (Zpos (Pos.iter xO m d)~0) with (2 * Zpos (Pos.iter xO m d)).
    rewrite IH. ring.
Qed.

Lemma shl_align_spec mx ex e' :
  (e' < ex ->
   Zpos (fst (shl_align mx ex e')) = Zpos mx * 2 ^ (ex - e') /\
   snd (shl_align mx ex e') = e') /\
  (ex <= e' -> shl_align mx ex e' = (mx, ex)).
Proof.
  unfold shl_align. split; intros H.
  - destruct (e' - ex) as [|p|p] eqn:E; try lia. cbn [fst snd].
    rewrite pos_iter_xO. split; [|reflexivity]. f_equal. f_equal. lia.
  - destruct (e' - ex) as [|p|p] eqn:E; try lia; reflexivity.
Qed.

(** Aligning a mantissa to a lower or equal exponent keeps the value. *)
Lemma shl_align_value mx ex ez :
  ez <= ex -> Zpos (fst (shl_align mx ex ez)) = Zpos mx * 2 ^ (ex - ez).
Proof.
  intros H. destruct (shl_align_spec mx ex ez) as [Hlt Hge].
  destruct (Z.eq_dec ez ex) as [->|Hne].
  - rewrite Hge by lia. cbn [fst]. rewrite Z.sub_diag. cbn. lia.
  - apply Hlt. lia.
Qed.

Lemma binary_normalize_val M e :
  0 <= M -> -1074 <= e ->
  rnd (M * 2 ^ (e + 1074)) 1 < 2 ^ 2098 ->
  SFval (binary_normalize prec emax M e false) = Some (rnd (M * 2 ^ (e + 1074)) 1).
Proof.
  intros HM He HV. destruct M as [|p|p]; [| |lia].
  - cbn [binary_normalize SFval]. rewrite Z.mul_0_l, rnd_zero by lia. reflexivity.
  - cbn [binary_normalize]. unfold binary_round.
    set (t0 := fexp prec emax (Zpos (digits2_pos p) + e)).
    assert (Et0 : t0 = Z.max (Zpos (digits2_pos p) + e - 53) (-1074)) by reflexivity.
    assert (Ft0 : fexp prec emax (Zdigits2 (Zpos p) + e) = t0) by reflexivity.
    clearbody t0.
    destruct (shl_align_spec p e t0) as [Hlt Hge].
    assert (Pe : 0 < 2 ^ (e + 1074)) by (apply pow2_pos; lia).
    destruct (Z.lt_ge_cases t0 e) as [Hcase|Hcase].
    + (* the mantissa is shifted left to the exponent [t0] *)
      destruct (Hlt Hcase) as [Emz Eez].
      destruct (shl_align p e t0) as [mz ez]. cbn [fst snd] in Emz, Eez. subst ez.
      assert (Ed : Zdigits2 (Zpos mz) = Zpos (digits2_pos p) + (e - t0)).
      { rewrite Emz. apply (Zdigits2_mul_pow2 (Zpos p)); lia. }
      assert (Et : fexp prec emax (Zdigits2 (Zpos mz) + t0) = t0).
      { rewrite fexp64, Ed. lia. }
      pose proof (binary_round_aux_val false (Zpos mz) t0 loc_Exact (Zpos mz) 1
                    ltac:(lia) (located_exact (Zpos mz) ltac:(lia))) as Hbra.
      cbv zeta in Hbra. rewrite Et in Hbra.
      assert (Ebridge : rnd (Zpos p * 2 ^ (e + 1074)) 1
                        = rne (Zpos mz) (1 * 2 ^ (t0 - t0)) * 2 ^ (t0 + 1074)).
      { pose proof (rnd_bridge (Zpos mz) 1 (Zpos p * 2 ^ (e + 1074)) 1 (Zpos mz) t0
                      0 (t0 + 1074)) as Hb.
        cbv zeta in Hb. rewrite <- fexp64, Et in Hb.
        apply Hb; try lia.
        rewrite Emz. change (2 ^ 0) with 1.
        replace (e + 1074) with ((e - t0) + (t0 + 1074)) by lia.
        rewrite pow2_split by lia. ring. }
      rewrite <- Ebridge in Hbra. apply Hbra; [lia|exact HV].
    + rewrite (Hge Hcase).
      pose proof (binary_round_aux_val false (Zpos p) e loc_Exact (Zpos p) 1
                    ltac:(lia) (located_exact (Zpos p) ltac:(lia))) as Hbra.
      cbv zeta in Hbra. rewrite Ft0 in Hbra.
      assert (Ebridge : rnd (Zpos p * 2 ^ (e + 1074)) 1
                        = rne (Zpos p) (1 * 2 ^ (t0 - e)) * 2 ^ (t0 + 1074)).
      { pose proof (rnd_bridge (Zpos p) 1 (Zpos p * 2 ^ (e + 1074)) 1 (Zpos p) e
                      0 (e + 1074)) as Hb.
        cbv zeta in Hb. rewrite <- fexp64, Ft0 in Hb.
        apply Hb; try lia. }
      rewrite <- Ebridge in Hbra. apply Hbra; [lia|exact HV].
Qed.

(** A valid number of non-negative value is a zero or a positive finite
    number. *)
Lemma nonneg_cases x v :
  valid x -> SFval x = Some v -> 0 <= v ->
  (exists s, x = S754_zero s /\ v = 0) \/
  (exists m e, x = S754_finite false m e /\ v = Zpos m * 2 ^ (e + 1074) /\ 0 < v).
Proof.
  intros Hv Hx Hpos. destruct x as [s| |  |s m e]; try discriminate.
  - left. exists s. cbn in Hx. split; congruence.
  - right. destruct (valid_finite s m e Hv) as (He & _).
    assert (P : 0 < 2 ^ (e + 1074)) by (apply pow2_pos; lia).
    cbn in Hx. injection Hx as <-.
    destruct s; cbn [cond_Zopp] in *; [nia|].
    exists m, e. repeat split. nia.
Qed.

Lemma valid_val_lt s m e :
  valid (S754_finite s m e) -> Zpos m * 2 ^ (e + 1074) < 2 ^ 2098.
Proof.
  intros Hv. destruct (valid_finite s m e Hv) as (He & _ & _ & Hm).
  assert (2 ^ (e + 1074) <= 2 ^ 2045) by (apply pow2_le; lia).
  assert (P : 0 < 2 ^ (e + 1074)) by (apply pow2_pos; lia).
  change (2 ^ 2098) with (2 ^ 53 * 2 ^ 2045). nia.
Qed.

Lemma rnd_id1 k : Fmt k -> rnd k 1 = k.
Proof. intros H. rewrite <- (rnd_id k 1 H) at 2 by lia. f_equal. lia. Qed.

Lemma SFadd_val x y vx vy :
  valid x -> valid y -> SFval x = Some vx -> SFval y = Some vy ->
  0 <= vx -> 0 <= vy ->
  rnd (vx + vy) 1 < 2 ^ 2098 ->
  SFval (SFadd prec emax x y) = Some (rnd (vx + vy) 1).
Proof.
  intros Hvx Hvy Hx Hy Hpx Hpy HV.
  destruct (nonneg_cases x vx Hvx Hx Hpx) as [(sx & -> & ->)|(mx & ex & -> & Evx & Hx0)];
  destruct (nonneg_cases y vy Hvy Hy Hpy) as [(sy & -> & ->)|(my & ey & -> & Evy & Hy0)].
  - rewrite rnd_zero by lia. destruct sx, sy; reflexivity.
  - cbn [SFadd Z.add]. rewrite rnd_id1 by (rewrite Evy; eapply valid_Fmt; eassumption).
    exact Hy.
  - cbn [SFadd]. rewrite Z.add_0_r.
    rewrite rnd_id1 by (rewrite Evx; eapply valid_Fmt; eassumption). exact Hx.
  - cbn [SFadd cond_Zopp].
    destruct (valid_finite _ _ _ Hvx) as (Hex & _).
    destruct (valid_finite _ _ _ Hvy) as (Hey & _).
    set (ez := Z.min ex ey) in *.
    assert (Hez : ez <= ex /\ ez <= ey /\ -1074 <= ez) by (subst ez; lia).
    clearbody ez.
    rewrite (shl_align_value mx ex ez), (shl_align_value my ey ez) by lia.
    assert (Px : 0 < 2 ^ (ex - ez)) by (apply pow2_pos; lia).
    assert (Py : 0 < 2 ^ (ey - ez)) by (apply pow2_pos; lia).
    assert (E : (Zpos mx * 2 ^ (ex - ez) + Zpos my * 2 ^ (ey - ez)) * 2 ^ (ez + 1074)
                = vx + vy).
    { rewrite Evx, Evy.
      replace (ex + 1074) with ((ex - ez) + (ez + 1074)) by lia.
      replace (ey + 1074) with ((ey - ez) + (ez + 1074)) by lia.
      rewrite (pow2_split (ex - ez) (ez + 1074)), (pow2_split (ey - ez) (ez + 1074)) by lia.
      ring. }
    rewrite <- E in HV |- *. apply binary_normalize_val; [nia|lia|exact HV].
Qed.

Lemma SFsub_val x y vx vy :
  valid x -> valid y -> SFval x = Some vx -> SFval y = Some vy ->
  0 <= vy <= vx ->
  SFval (SFsub prec emax x y) = Some (rnd (vx - vy) 1).
Proof.
  intros Hvx Hvy Hx Hy Hle.
  assert (HV : rnd (vx - vy) 1 < 2 ^ 2098).
  { destruct (nonneg_cases x vx Hvx Hx ltac:(lia))
      as [(sx & -> & ->)|(mx & ex & -> & Evx & Hx0)].
    - replace (0 - vy) with 0 by lia. rewrite rnd_zero by lia. reflexivity.
    - apply Z.le_lt_trans with vx.
      + rewrite <- (rnd_id1 vx) at 2 by (rewrite Evx; eapply valid_Fmt; eassumption).
        apply rnd_mono; lia.
      + rewrite Evx. eapply valid_val_lt; eassumption. }
  destruct (nonneg_cases x vx Hvx Hx ltac:(lia)) as [(sx & -> & ->)|(mx & ex & -> & Evx & Hx0)];
  destruct (nonneg_cases y vy Hvy Hy ltac:(lia)) as [(sy & -> & ->)|(my & ey & -> & Evy & Hy0)].
  - rewrite rnd_zero by lia. destruct sx, sy; reflexivity.
  - lia.
  - cbn [SFsub]. rewrite Z.sub_0_r.
    rewrite rnd_id1 by (rewrite Evx; eapply valid_Fmt; eassumption). exact Hx.
  - cbn [SFsub cond_Zopp].
    destruct (valid_finite _ _ _ Hvx) as (Hex & _).
    destruct (valid_finite _ _ _ Hvy) as (Hey & _).
    set (ez := Z.min ex ey) in *.
    assert (Hez : ez <= ex /\ ez <= ey /\ -1074 <= ez) by (subst ez; lia).
    clearbody ez.
    rewrite (shl_align_value mx ex ez), (shl_align_value my ey ez) by lia.
    assert (Px : 0 < 2 ^ (ex - ez)) by (apply pow2_pos; lia).
    assert (Py : 0 < 2 ^ (ey - ez)) by (apply pow2_pos; lia).
    assert (Pz : 0 < 2 ^ (ez + 1074)) by (apply pow2_pos; lia).
    assert (E : (Zpos mx * 2 ^ (ex - ez) - Zpos my * 2 ^ (ey - ez)) * 2 ^ (ez + 1074)
                = vx - vy).
    { rewrite Evx, Evy.
      replace (ex + 1074) with ((ex - ez) + (ez + 1074)) by lia.
      replace (ey + 1074) with ((ey - ez) + (ez + 1074)) by lia.
      rewrite (pow2_split (ex - ez) (ez + 1074)), (pow2_split (ey - ez) (ez + 1074)) by lia.
      ring. }
    rewrite <- E in HV |- *. apply binary_normalize_val; [nia|lia|exact HV].
Qed.

Lemma Zdigits2_lower M k : 0 <= k -> 2 ^ k <= M -> k + 1 <= Zdigits2 M.
Proof.
  intros Hk HM. assert (P : 0 < 2 ^ k) by (apply pow2_pos; lia).
  destruct (Zdigits2_spec M ltac:(lia)) as [[? _]|(_ & Hd1 & Hd)]; [lia|].
  destruct (Z.le_gt_cases (k + 1) (Zdigits2 M)) as [H|H]; [exact H|exfalso].
  assert (2 ^ Zdigits2 M <= 2 ^ k) by (apply pow2_le; lia). lia.
Qed.

Lemma SFmul_val x y vx vy :
  valid x -> valid y -> SFval x = Some vx -> SFval y = Some vy ->
  0 <= vx -> 0 <= vy ->
  rnd (vx * vy) (2 ^ 1074) < 2 ^ 2098 ->
  SFval (SFmul prec emax x y) = Some (rnd (vx * vy) (2 ^ 1074)).
Proof.
  intros Hvx Hvy Hx Hy Hpx Hpy HV.
  assert (PD : 0 < 2 ^ 1074) by (apply pow2_pos; lia).
  destruct (nonneg_cases x vx Hvx Hx Hpx) as [(sx & -> & ->)|(mx & ex & -> & Evx & Hx0)];
  destruct (nonneg_cases y vy Hvy Hy Hpy) as [(sy & -> & ->)|(my & ey & -> & Evy & Hy0)];
    try (rewrite ?Z.mul_0_l, ?Z.mul_0_r, rnd_zero by lia; reflexivity).
  cbn [SFmul xorb]. rewrite Pos2Z.inj_mul.
  destruct (valid_finite _ _ _ Hvx) as (Hex & Hdx & Hcx & _).
  destruct (valid_finite _ _ _ Hvy) as (Hey & Hdy & Hcy & _).
  pose proof (digits2_pos_spec mx) as Hbx. pose proof (digits2_pos_spec my) as Hby.
  set (dx := Zpos (digits2_pos mx)) in *. set (dy := Zpos (digits2_pos my)) in *.
  assert (Hdx1 : 1 <= dx) by (subst dx; lia).
  assert (Hdy1 : 1 <= dy) by (subst dy; lia).
  clearbody dx dy.
  set (A := Zpos mx * Zpos my).
  assert (HA : 0 < A) by (subst A; lia).
  assert (HdA : dx + dy - 1 <= Zdigits2 A).
  { replace (dx + dy - 1) with ((dx - 1) + (dy - 1) + 1) by lia.
    apply Zdigits2_lower; [lia|]. rewrite pow2_split by lia. subst A.
    assert (0 < 2 ^ (dx - 1)) by (apply pow2_pos; lia).
    assert (0 < 2 ^ (dy - 1)) by (apply pow2_pos; lia). nia. }
  assert (Ht : ex + ey <= fexp prec emax (Zdigits2 A + (ex + ey))).
  { rewrite fexp64. lia. }
  pose proof (binary_round_aux_val false A (ex + ey) loc_Exact A 1
                ltac:(lia) (located_exact A ltac:(lia))) as Hbra.
  cbv zeta in Hbra.
  assert (Ebridge : rnd (vx * vy) (2 ^ 1074)
                    = rne A (1 * 2 ^ (fexp prec emax (Zdigits2 A + (ex + ey)) - (ex + ey)))
                      * 2 ^ (fexp prec emax (Zdigits2 A + (ex + ey)) + 1074)).
  { pose proof (rnd_bridge A 1 (vx * vy) (2 ^ 1074) A (ex + ey) 1074 (ex + ey + 2148)) as Hb.
    cbv zeta in Hb. rewrite <- fexp64 in Hb.
    apply Hb; try lia; try exact PD; try (apply Z.mul_nonneg_nonneg; lia).
    - rewrite Evx, Evy. subst A.
      replace (ex + ey + 2148) with ((ex + 1074) + (ey + 1074)) by lia.
      rewrite (pow2_split (ex + 1074) (ey + 1074)) by lia. ring. }
  rewrite <- Ebridge in Hbra. apply Hbra; [exact Ht|exact HV].
Qed.

(** The location [SFdiv] computes from the remainder. *)
Lemma new_location_spec B r :
  0 < B -> 0 <= r < B ->
  new_location B r
  = if r =? 0 then loc_Exact else loc_Inexact (2 * r ?= B).
Proof.
  intros HB Hr. unfold new_location, new_location_even, new_location_odd.
  destruct (Z.eq_dec r 0) as [->|Hne]; [destruct (Z.even B); reflexivity|].
  pose proof (proj2 (Z.eqb_neq r 0) Hne) as Hb.
  destruct (Z.even B) eqn:Ev; cbv beta; rewrite !Hb; [reflexivity|].
  f_equal.
  assert (Hodd : Z.odd B = true) by (rewrite <- Z.negb_even, Ev; reflexivity).
  apply Z.odd_spec in Hodd as [k Hk].
  destruct (Z.compare_spec (2 * r + 1) B); destruct (Z.compare_spec (2 * r) B);
    try reflexivity; lia.
Qed.

Lemma located_div A B :
  0 <= A -> 0 < B ->
  located A B (shr_record_of_loc (A / B) (new_location B (A mod B))).
Proof.
  intros HA HB.
  pose proof (Z.div_mod A B ltac:(lia)) as Hdm.
  pose proof (Z.mod_pos_bound A B HB) as Hr.
  assert (Hq : 0 <= A / B) by (apply Z.div_pos; lia).
  rewrite new_location_spec by lia.
  unfold located.
  assert (Er : A - A / B * B = A mod B) by lia.
  destruct (Z.eqb_spec (A mod B) 0) as [E0|Hne].
  - cbn [shr_record_of_loc shr_m shr_r shr_s]. rewrite Er, E0.
    repeat split; try lia; bool_cases; cbn; try reflexivity; lia.
  - destruct (Z.compare_spec (2 * (A mod B)) B);
      cbn [shr_record_of_loc shr_m shr_r shr_s]; rewrite Er;
      repeat split; try lia; bool_cases; cbn; try reflexivity; lia.
Qed.

Lemma SFdiv_form mx ex my ey :
  valid (S754_finite false mx ex) -> valid (S754_finite false my ey) ->
  exists q e' l A B,
    SFdiv prec emax (S754_finite false mx ex) (S754_finite false my ey)
      = binary_round_aux prec emax false q e' l /\
    0 < B /\ located A B (shr_record_of_loc q l) /\
    e' <= fexp prec emax (Zdigits2 q + e') /\
    rnd (Zpos mx * 2 ^ (ex + 1074) * 2 ^ 1074) (Zpos my * 2 ^ (ey + 1074))
      = rne A (B * 2 ^ (fexp prec emax (Zdigits2 q + e') - e'))
        * 2 ^ (fexp prec emax (Zdigits2 q + e') + 1074).
Proof.
  intros Hvx Hvy.
  assert (PD : 0 < 2 ^ 1074) by (apply pow2_pos; lia).
  set (vx := Zpos mx * 2 ^ (ex + 1074)). set (vy := Zpos my * 2 ^ (ey + 1074)).
  assert (Evx : vx = Zpos mx * 2 ^ (ex + 1074)) by reflexivity.
  assert (Evy : vy = Zpos my * 2 ^ (ey + 1074)) by reflexivity.
  clearbody vx vy.
  cbn [SFdiv xorb]. unfold SFdiv_core_binary.
  destruct (valid_finite _ _ _ Hvx) as (Hex & Hdx & Hcx & _).
  destruct (valid_finite _ _ _ Hvy) as (Hey & Hdy & Hcy & _).
  pose proof (digits2_pos_spec mx) as Hbx. pose proof (digits2_pos_spec my) as Hby.
  cbn [Zdigits2]. rewrite fexp64.
  set (dx := Zpos (digits2_pos mx)) in *. set (dy := Zpos (digits2_pos my)) in *.
  assert (Hdx1 : 1 <= dx) by (subst dx; lia).
  assert (Hdy1 : 1 <= dy) by (subst dy; lia).
  clearbody dx dy.
  set (e' := Z.min (Z.max (dx + ex - (dy + ey) - 53) (-1074)) (ex - ey)).
  assert (He' : e' <= ex - ey /\ e' <= Z.max (dx + ex - (dy + ey) - 53) (-1074))
    by (subst e'; lia).
  clearbody e'.
  set (s := ex - ey - e').
  assert (Hs : 0 <= s) by (subst s; lia).
  set (m' := match s with Z0 => Zpos mx | Zpos _ => Z.shiftl (Zpos mx) s | Zneg _ => 0 end).
  assert (Em' : m' = Zpos mx * 2 ^ s).
  { subst m'. destruct s as [|p|p] eqn:Es; [cbn; lia| |lia].
    rewrite Z.shiftl_mul_pow2 by lia. reflexivity. }
  clearbody m'.
  assert (Ps : 0 < 2 ^ s) by (apply pow2_pos; lia).
  assert (Hm' : 0 < m') by nia.
  unfold Z.div_eucl at 1. fold (Z.div_eucl m' (Zpos my)).
  assert (Ediv : Z.div_eucl m' (Zpos my) = (m' / Zpos my, m' mod Zpos my)).
  { unfold Z.div, Z.modulo. destruct (Z.div_eucl m' (Zpos my)). reflexivity. }
  rewrite Ediv.
  pose proof (located_div m' (Zpos my) ltac:(lia) ltac:(lia)) as Hloc.
  set (q := m' / Zpos my) in *.
  assert (Hq0 : 0 <= q) by (subst q; apply Z.div_pos; lia).
  (* enough digits in the quotient *)
  assert (Ht : e' <= fexp prec emax (Zdigits2 q + e')).
  { rewrite fexp64.
    destruct (Z.le_gt_cases e' (-1074)) as [Hlow|Hhigh]; [lia|].
    assert (Hk : 53 <= dx + s - dy) by (subst s; lia).
    assert (dx + s - dy <= Zdigits2 q); [|lia].
    replace (dx + s - dy) with ((dx + s - dy - 1) + 1) by lia.
    apply Zdigits2_lower; [lia|].
    subst q. apply Z.div_le_lower_bound; [lia|].
    assert (2 ^ (dx - 1 + s) <= m').
    { rewrite pow2_split by lia. nia. }
    assert (2 ^ (dx - 1 + s) = 2 ^ (dx + s - dy - 1) * 2 ^ dy).
    { rewrite <- pow2_split by lia. f_equal. lia. }
    assert (0 < 2 ^ (dx + s - dy - 1)) by (apply pow2_pos; lia).
    nia. }
  assert (Ebridge : rnd (vx * 2 ^ 1074) vy
                    = rne m' (Zpos my * 2 ^ (fexp prec emax (Zdigits2 q + e') - e'))
                      * 2 ^ (fexp prec emax (Zdigits2 q + e') + 1074)).
  { pose proof (rnd_bridge m' (Zpos my) (vx * 2 ^ 1074) vy q e'
                  (Z.max 0 (- (e' + 1074))) (Z.max 0 (e' + 1074))) as Hb.
    cbv zeta in Hb. rewrite <- fexp64 in Hb.
    apply Hb; try lia.
    - destruct Hloc as (_ & HA & _). rewrite shr_m_of_loc in HA. exact HA.
    - rewrite Evx, Evy, Em'.
      assert (Hp : 2 ^ (ex + 1074) * 2 ^ 1074 * 2 ^ Z.max 0 (- (e' + 1074))
                   = 2 ^ s * 2 ^ (ey + 1074) * 2 ^ Z.max 0 (e' + 1074)).
      { rewrite <- !pow2_split by lia. f_equal. subst s. lia. }
      replace (Zpos mx * 2 ^ (ex + 1074) * 2 ^ 1074 * Zpos my * 2 ^ Z.max 0 (- (e' + 1074)))
        with (Zpos mx * Zpos my * (2 ^ (ex + 1074) * 2 ^ 1074 * 2 ^ Z.max 0 (- (e' + 1074))))
        by ring.
      rewrite Hp. ring. }
  assert (Hy0 : 0 < vy).
  { rewrite Evy. assert (0 < 2 ^ (ey + 1074)) by (apply pow2_pos; lia). nia. }
  exists q, e', (new_location (Zpos my) (m' mod Zpos my)), m', (Zpos my).
  repeat split; try assumption; try lia; apply Hloc.
Qed.

Lemma SFdiv_val x y vx vy :
  valid x -> valid y -> SFval x = Some vx -> SFval y = Some vy ->
  0 <= vx -> 0 < vy ->
  rnd (vx * 2 ^ 1074) vy < 2 ^ 2098 ->
  SFval (SFdiv prec emax x y) = Some (rnd (vx * 2 ^ 1074) vy).
Proof.
  intros Hvx Hvy Hx Hy Hpx Hpy HV.
  destruct (nonneg_cases y vy Hvy Hy ltac:(lia)) as [(sy & -> & ->)|(my & ey & -> & Evy & _)];
    [lia|].
  destruct (nonneg_cases x vx Hvx Hx Hpx) as [(sx & -> & ->)|(mx & ex & -> & Evx & Hx0)].
  { rewrite Z.mul_0_l, rnd_zero by lia. reflexivity. }
  destruct (SFdiv_form mx ex my ey Hvx Hvy) as (q & e' & l & A & B & -> & HB & Hloc & Ht & E).
  rewrite <- Evx, <- Evy in E. rewrite E in HV |- *.
  apply (binary_round_aux_val false q e' l A B HB Hloc Ht HV).
Qed.

(** A quotient either has the rounded value or overflows to infinity. *)
Lemma SFdiv_overflow x y vx vy :
  valid x -> valid y -> SFval x = Some vx -> SFval y = Some vy ->
  0 <= vx -> 0 < vy ->
  2 ^ 2098 <= rnd (vx * 2 ^ 1074) vy ->
  SFdiv prec emax x y = S754_infinity false.
Proof.
  intros Hvx Hvy Hx Hy Hpx Hpy HV.
  destruct (nonneg_cases y vy Hvy Hy ltac:(lia)) as [(sy & -> & ->)|(my & ey & -> & Evy & _)];
    [lia|].
  destruct (nonneg_cases x vx Hvx Hx Hpx) as [(sx & -> & ->)|(mx & ex & -> & Evx & Hx0)].
  { rewrite Z.mul_0_l, rnd_zero in HV by lia.
    assert (0 < 2 ^ 2098) by (apply pow2_pos; lia). lia. }
  destruct (SFdiv_form mx ex my ey Hvx Hvy) as (q & e' & l & A & B & -> & HB & Hloc & Ht & E).
  rewrite <- Evx, <- Evy in E. rewrite E in HV.
  apply (binary_round_aux_overflow false q e' l A B HB Hloc Ht HV).
Qed.

(** A finite number divided by infinity is a zero. *)
Lemma SFdiv_infinity x vx :
  SFval x = Some vx -> SFval (SFdiv prec emax x (S754_infinity false)) = Some 0.
Proof. destruct x; try discriminate; reflexivity. Qed.

(** Among valid numbers the one with the smaller exponent is smaller. *)
Lemma canonical_lt s1 m1 e1 s2 m2 e2 :
  valid (S754_finite s1 m1 e1) -> valid (S754_finite s2 m2 e2) ->
  e1 < e2 -> Zpos m1 * 2 ^ (e1 + 1074) < Zpos m2 * 2 ^ (e2 + 1074).
Proof.
  intros H1 H2 Hlt.
  destruct (valid_finite _ _ _ H1) as (He1 & _ & _ & Hm1).
  destruct (valid_finite _ _ _ H2) as (He2 & _ & Hc2 & _).
  pose proof (digits2_pos_spec m2) as Hb2.
  assert (Hd2 : Zpos (digits2_pos m2) = 53) by lia. rewrite Hd2 in Hb2.
  change (2 ^ (53 - 1)) with (2 ^ 52) in Hb2.
  assert (P1 : 0 < 2 ^ (e1 + 1074)) by (apply pow2_pos; lia).
  assert (P2 : 0 < 2 ^ (e2 + 1074)) by (apply pow2_pos; lia).
  assert (Hp : 2 ^ 53 * 2 ^ (e1 + 1074) <= 2 ^ 52 * 2 ^ (e2 + 1074)).
  { rewrite <- !pow2_split by lia. apply pow2_le. lia. }
  nia.
Qed.

Lemma SFcompare_val x y vx vy :
  valid x -> valid y -> SFval x = Some vx -> SFval y = Some vy ->
  0 <= vx -> 0 <= vy ->
  SFcompare x y = Some (vx ?= vy).
Proof.
  intros Hvx Hvy Hx Hy Hpx Hpy.
  destruct (nonneg_cases x vx Hvx Hx Hpx) as [(sx & -> & ->)|(mx & ex & -> & Evx & Hx0)];
  destruct (nonneg_cases y vy Hvy Hy Hpy) as [(sy & -> & ->)|(my & ey & -> & Evy & Hy0)];
    cbn [SFcompare].
  - reflexivity.
  - f_equal. symmetry. apply Z.compare_lt_iff. lia.
  - f_equal. symmetry. apply Z.compare_gt_iff. lia.
  - f_equal. symmetry.
    destruct (Z.compare_spec ex ey) as [->|Hlt|Hgt].
    + rewrite Evx, Evy.
      destruct (valid_finite _ _ _ Hvy) as (Hey & _).
      assert (P : 0 < 2 ^ (ey + 1074)) by (apply pow2_pos; lia).
      rewrite Pos.compare_cont_spec. cbn [Pos.switch_Eq].
      change (Pos.compare mx my) with (Zpos mx ?= Zpos my).
      destruct (Z.compare_spec (Zpos mx) (Zpos my)) as [E|H|H].
      * apply Z.compare_eq_iff. rewrite E. reflexivity.
      * apply Z.compare_lt_iff. nia.
      * apply Z.compare_gt_iff. nia.
    + apply Z.compare_lt_iff. rewrite Evx, Evy. eapply canonical_lt; eassumption.
    + apply Z.compare_gt_iff. rewrite Evx, Evy. eapply canonical_lt; eassumption.
Qed.

Lemma SFleb_val x y vx vy :
  valid x -> valid y -> SFval x = Some vx -> SFval y = Some vy ->
  0 <= vx -> 0 <= vy ->
  SFleb x y = (vx <=? vy).
Proof.
  intros. unfold SFleb. erewrite SFcompare_val by eassumption.
  unfold Z.leb. destruct (vx ?= vy); reflexivity.
Qed.

Lemma SFltb_val x y vx vy :
  valid x -> valid y -> SFval x = Some vx -> SFval y = Some vy ->
  0 <= vx -> 0 <= vy ->
  SFltb x y = (vx <? vy).
Proof.
  intros. unfold SFltb. erewrite SFcompare_val by eassumption.
  unfold Z.ltb. destruct (vx ?= vy); reflexivity.
Qed.

(** What is at least zero is a non-negative finite number or [+infinity]. *)
Lemma SFleb_zero x :
  SFleb (S754_zero false) x = true ->
  x = S754_infinity false \/ exists v, SFval x = Some v /\ 0 <= v.
Proof.
  destruct x as [s|[]| |[] m e]; cbn; try discriminate; intros _.
  - right. exists 0. split; [reflexivity|lia].
  - left. reflexivity.
  - right. eexists. split; [reflexivity|].
    apply Z.mul_nonneg_nonneg; [lia|]. apply Z.pow_nonneg. lia.
Qed.

Lemma SFltb_finite x y vy :
  SFltb x y = true -> SFval y = Some vy -> x <> S754_infinity false.
Proof.
  intros Hlt Hy ->. destruct y as [s|s| |s m e]; try discriminate;
    cbn in Hlt; discriminate.
Qed.

Lemma SFleb_finite x y vy :
  SFleb x y = true -> SFval y = Some vy -> x <> S754_infinity false.
Proof.
  intros Hlt Hy ->. destruct y as [s|s| |s m e]; try discriminate;
    cbn in Hlt; discriminate.
Qed.

Lemma rnd_nonneg N D : 0 <= N -> 0 < D -> 0 <= rnd N D.
Proof.
  intros HN HD. rewrite <- (rnd_zero D HD). apply rnd_mono; nia.
Qed.

(** ** Primitive floats *)

Lemma fnn_valid x : valid (Prim2SF x).
Proof. apply Prim2SF_valid. Qed.

Lemma fnn_inj x v w : fnn x v -> fnn x w -> v = w.
Proof. intros [H1 _] [H2 _]. congruence. Qed.

Lemma fnn_Fmt x v : fnn x v -> Fmt v.
Proof.
  intros [Hx Hv].
  destruct (nonneg_cases _ _ (fnn_valid x) Hx Hv) as [(s & _ & ->)|(m & e & E & -> & _)].
  - exists 0, 0. cbn. lia.
  - eapply valid_Fmt. rewrite <- E. apply fnn_valid.
Qed.

Lemma fnn_lt x v : fnn x v -> v < 2 ^ 2098.
Proof.
  intros [Hx Hv].
  destruct (nonneg_cases _ _ (fnn_valid x) Hx Hv) as [(s & _ & ->)|(m & e & E & -> & _)].
  - reflexivity.
  - eapply valid_val_lt. rewrite <- E. apply fnn_valid.
Qed.

Lemma fnn_add a b va vb :
  fnn a va -> fnn b vb -> rnd (va + vb) 1 < 2 ^ 2098 ->
  fnn (a + b) (rnd (va + vb) 1).
Proof.
  intros [Ha Hva] [Hb Hvb] HV. split.
  - rewrite add_spec. apply SFadd_val; auto using fnn_valid.
  - apply rnd_nonneg; lia.
Qed.

Lemma fnn_sub a b va vb :
  fnn a va -> fnn b vb -> vb <= va -> fnn (a - b) (rnd (va - vb) 1).
Proof.
  intros [Ha Hva] [Hb Hvb] Hle. split.
  - rewrite sub_spec. apply SFsub_val; auto using fnn_valid.
  - apply rnd_nonneg; lia.
Qed.

Lemma fnn_mul a b va vb :
  fnn a va -> fnn b vb -> rnd (va * vb) (2 ^ 1074) < 2 ^ 2098 ->
  fnn (a * b) (rnd (va * vb) (2 ^ 1074)).
Proof.
  intros [Ha Hva] [Hb Hvb] HV. split.
  - rewrite mul_spec. apply SFmul_val; auto using fnn_valid.
  - apply rnd_nonneg; [apply Z.mul_nonneg_nonneg; lia|apply pow2_pos; lia].
Qed.

Lemma fnn_div a b va vb :
  fnn a va -> fnn b vb -> 0 < vb -> rnd (va * 2 ^ 1074) vb < 2 ^ 2098 ->
  fnn (a / b) (rnd (va * 2 ^ 1074) vb).
Proof.
  intros [Ha Hva] [Hb Hvb] Hpos HV. split.
  - rewrite div_spec. apply SFdiv_val; auto using fnn_valid.
  - apply rnd_nonneg; [|lia]. apply Z.mul_nonneg_nonneg; [lia|]. apply Z.pow_nonneg. lia.
Qed.

Lemma fnn_leb a b va vb : fnn a va -> fnn b vb -> (a <=? b)%float = (va <=? vb).
Proof.
  intros [Ha Hva] [Hb Hvb]. rewrite leb_spec. apply SFleb_val; auto using fnn_valid.
Qed.

Lemma fnn_ltb a b va vb : fnn a va -> fnn b vb -> (a <? b)%float = (va <? vb).
Proof.
  intros [Ha Hva] [Hb Hvb]. rewrite ltb_spec. apply SFltb_val; auto using fnn_valid.
Qed.

Lemma fnn_0 : fnn 0%float 0.
Proof. split; [reflexivity|lia]. Qed.

Lemma fnn_1 : fnn 1%float (2 ^ 1074).
Proof. split; [vm_compute; reflexivity|apply Z.pow_nonneg; lia]. Qed.

Lemma fnn_2 : fnn 2%float (2 ^ 1075).
Proof. split; [vm_compute; reflexivity|apply Z.pow_nonneg; lia]. Qed.

(** A number between zero and a finite number is finite. *)
Lemma fnn_between x y vy :
  (0 <=? x)%float = true -> (x <=? y)%float = true -> fnn y vy ->
  exists v, fnn x v /\ v <= vy.
Proof.
  intros H0 Hxy Hy. rewrite leb_spec in H0, Hxy.
  change (Prim2SF 0) with (S754_zero false) in H0.
  destruct (SFleb_zero _ H0) as [Einf|(v & Hv & Hpos)].
  - exfalso. eapply SFleb_finite; [exact Hxy|apply Hy|exact Einf].
  - exists v. split; [split; assumption|].
    destruct Hy as [Hy Hvy].
    rewrite (SFleb_val _ _ v vy) in Hxy; auto using fnn_valid. lia.
Qed.

Lemma fnn_below x y vy :
  (0 <=? x)%float = true -> (x <? y)%float = true -> fnn y vy ->
  exists v, fnn x v /\ v < vy.
Proof.
  intros H0 Hxy Hy. rewrite leb_spec in H0. rewrite ltb_spec in Hxy.
  change (Prim2SF 0) with (S754_zero false) in H0.
  destruct (SFleb_zero _ H0) as [Einf|(v & Hv & Hpos)].
  - exfalso. eapply SFltb_finite; [exact Hxy|apply Hy|exact Einf].
  - exists v. split; [split; assumption|].
    destruct Hy as [Hy Hvy].
    rewrite (SFltb_val _ _ v vy) in Hxy; auto using fnn_valid. lia.
Qed.

(** A binary64 number below 1 is at most [1 - 2^-53]. *)
Lemma Fmt_below_one vu :
  Fmt vu -> vu < 2 ^ 1074 -> vu <= (2 ^ 53 - 1) * 2 ^ 1021.
Proof.
  intros (m & j & Hj & Hm & ->) Hlt.
  change (2 ^ 1074) with (2 ^ 53 * 2 ^ 1021) in Hlt.
  assert (Pa : 0 < 2 ^ 1021) by (apply pow2_pos; lia).
  set (a := 2 ^ 1021) in *.
  destruct (Z.le_gt_cases j 1021) as [Hcase|Hcase].
  - assert (2 ^ j <= a) by (apply pow2_le; lia).
    assert (0 < 2 ^ j) by (apply pow2_pos; lia). nia.
  - assert (E : 2 ^ j = a * 2 ^ (j - 1021)).
    { subst a. rewrite <- pow2_split by lia. f_equal. lia. }
    assert (Pc : 0 < 2 ^ (j - 1021)) by (apply pow2_pos; lia).
    rewrite E in *. set (c := 2 ^ (j - 1021)) in *.
    assert (m * c < 2 ^ 53) by nia. nia.
Qed.

(** A number scaled by a draw below 1, after both roundings, does not
    exceed the exact value the number was rounded from. *)
Lemma rnd_scaled_le v e vu :
  0 <= v -> e = rnd v 1 -> Fmt e ->
  0 <= vu <= (2 ^ 53 - 1) * 2 ^ 1021 ->
  rnd (vu * e) (2 ^ 1074) <= v.
Proof.
  intros Hv Ee He Hvu.
  assert (PP : 0 < 2 ^ 1074) by (apply pow2_pos; lia).
  assert (He0 : 0 <= e) by (rewrite Ee; apply rnd_nonneg; lia).
  destruct (Z.le_gt_cases e v) as [Hle|Hgt].
  - apply Z.le_trans with e; [|exact Hle].
    rewrite <- (rnd_id e (2 ^ 1074) He PP) at 2.
    apply rnd_mono; [apply Z.mul_nonneg_nonneg; lia|lia|lia|].
    change (2 ^ 1074) with (2 ^ 53 * 2 ^ 1021) at 1 3.
    assert (0 < 2 ^ 1021) by (apply pow2_pos; lia). nia.
  - (* the number was rounded up *)
    unfold rnd in Ee. rewrite Z.div_1_r, Z.mul_1_l in Ee.
    pose proof (cexp_nonneg v) as Hj. pose proof (cexp_upper v Hv) as Hup.
    pose proof (cexp_lower v) as Hlo.
    set (j := cexp v) in *. clearbody j.
    assert (Pj : 0 < 2 ^ j) by (apply pow2_pos; lia).
    destruct (rne_cases v (2 ^ j) Pj) as (q & r & Ev & Hr & Hcases).
    assert (Em : rne v (2 ^ j) = q + 1).
    { destruct Hcases as [[_ E]|[[_ E]|[(_ & _ & E)|(_ & _ & E)]]]; try exact E;
        exfalso; rewrite E in Ee; nia. }
    rewrite Em in Ee.
    assert (Hj1 : 0 < j).
    { destruct (Z.eq_dec j 0) as [->|]; [|lia]. change (2 ^ 0) with 1 in *. lia. }
    specialize (Hlo Hj1).
    rewrite pow2_split in Hlo, Hup by lia.
    assert (Hq : 2 ^ 52 <= q < 2 ^ 53) by nia.
    apply Z.le_trans with (q * 2 ^ j); [|nia].
    apply Z.le_trans with (rnd (e * (2 ^ 53 - 1)) (2 ^ 53)).
    + apply rnd_mono; [apply Z.mul_nonneg_nonneg; lia|lia|lia|].
      change (2 ^ 1074) with (2 ^ 53 * 2 ^ 1021).
      assert (0 < 2 ^ 1021) by (apply pow2_pos; lia). nia.
    + subst e. unfold rnd.
      assert (Ec : cexp ((q + 1) * 2 ^ j * (2 ^ 53 - 1) / 2 ^ 53) = j).
      { rewrite (cexp_between _ _ (53 + j)); try lia.
        - intros _. replace (53 + j - 1) with (52 + j) by lia.
          rewrite pow2_split by lia. nia.
        - intros _. rewrite pow2_split by lia. nia. }
      rewrite Ec. apply Z.mul_le_mono_nonneg_r; [lia|].
      rewrite (rne_eq _ _ ((q + 1) * (2 ^ 53 - 1)) (2 ^ 53)); [|nia|lia|nia].
      destruct (rne_cases ((q + 1) * (2 ^ 53 - 1)) (2 ^ 53) ltac:(lia))
        as (q' & r' & E' & Hr' & Hc').
      destruct Hc' as [[? ->]|[[? ->]|[(? & ? & ->)|(? & ? & ->)]]]; lia.
Qed.

(** ** Reading comparisons *)

Lemma SFltb_infinity_l y : SFltb (S754_infinity false) y = false.
Proof. destruct y as [s|[]| |[] m e]; reflexivity. Qed.

Lemma SFleb_infinity_l y vy :
  SFval y = Some vy -> SFleb (S754_infinity false) y = false.
Proof. destruct y as [s|[]| |[] m e]; try discriminate; reflexivity. Qed.

Lemma SFltb_nonneg_l x y vx :
  valid x -> valid y -> SFval x = Some vx -> 0 <= vx ->
  SFltb x y = true ->
  y = S754_infinity false \/ exists vy, SFval y = Some vy /\ vx < vy.
Proof.
  intros Hvx Hvy Hx Hpx Hlt.
  destruct y as [sy|[]| |[] my ey] eqn:Ey.
  - right. exists 0. split; [reflexivity|].
    rewrite (SFltb_val x (S754_zero sy) vx 0) in Hlt by (auto; reflexivity || lia). lia.
  - exfalso.
    destruct (nonneg_cases x vx Hvx Hx Hpx) as [(s & -> & _)|(m & e & -> & _)];
      cbn in Hlt; discriminate.
  - left. reflexivity.
  - exfalso.
    destruct (nonneg_cases x vx Hvx Hx Hpx) as [(s & -> & _)|(m & e & -> & _)];
      cbn in Hlt; discriminate.
  - exfalso.
    destruct (nonneg_cases x vx Hvx Hx Hpx) as [(s & -> & _)|(m & e & -> & _)];
      cbn in Hlt; discriminate.
  - right. eexists. split; [reflexivity|].
    destruct (valid_finite _ _ _ Hvy) as (He & _).
    assert (P : 0 < 2 ^ (ey + 1074)) by (apply pow2_pos; lia).
    cbn [cond_Zopp].
    rewrite (SFltb_val x _ vx _ Hvx Hvy Hx eq_refl) in Hlt by (cbn [cond_Zopp]; nia).
    cbn [cond_Zopp] in Hlt. lia.
Qed.

Lemma SFleb_nonneg_l x y vx :
  valid x -> valid y -> SFval x = Some vx -> 0 <= vx ->
  SFleb x y = true ->
  y = S754_infinity false \/ exists vy, SFval y = Some vy /\ vx <= vy.
Proof.
  intros Hvx Hvy Hx Hpx Hle.
  destruct y as [sy|[]| |[] my ey] eqn:Ey.
  - right. exists 0. split; [reflexivity|].
    rewrite (SFleb_val x (S754_zero sy) vx 0) in Hle by (auto; reflexivity || lia). lia.
  - exfalso.
    destruct (nonneg_cases x vx Hvx Hx Hpx) as [(s & -> & _)|(m & e & -> & _)];
      cbn in Hle; discriminate.
  - left. reflexivity.
  - exfalso.
    destruct (nonneg_cases x vx Hvx Hx Hpx) as [(s & -> & _)|(m & e & -> & _)];
      cbn in Hle; discriminate.
  - exfalso.
    destruct (nonneg_cases x vx Hvx Hx Hpx) as [(s & -> & _)|(m & e & -> & _)];
      cbn in Hle; discriminate.
  - right. eexists. split; [reflexivity|].
    destruct (valid_finite _ _ _ Hvy) as (He & _).
    assert (P : 0 < 2 ^ (ey + 1074)) by (apply pow2_pos; lia).
    cbn [cond_Zopp].
    rewrite (SFleb_val x _ vx _ Hvx Hvy Hx eq_refl) in Hle by (cbn [cond_Zopp]; nia).
    cbn [cond_Zopp] in Hle. lia.
Qed.

(** [a < b] with [a] finite and non-negative: [b] is [+infinity] or a
    larger finite number. *)
Lemma fnn_ltb_r a b va :
  fnn a va -> (a <? b)%float = true ->
  Prim2SF b = S754_infinity false \/ exists vb, fnn b vb /\ va < vb.
Proof.
  intros [Ha Hva] Hlt. rewrite ltb_spec in Hlt.
  destruct (SFltb_nonneg_l _ _ va (fnn_valid a) (fnn_valid b) Ha Hva Hlt)
    as [E|(vb & Hb & Hvb)]; [left; exact E|].
  right. exists vb. repeat split; [exact Hb|lia|exact Hvb].
Qed.

Lemma fnn_leb_r a b va :
  fnn a va -> (a <=? b)%float = true ->
  Prim2SF b = S754_infinity false \/ exists vb, fnn b vb /\ va <= vb.
Proof.
  intros [Ha Hva] Hle. rewrite leb_spec in Hle.
  destruct (SFleb_nonneg_l _ _ va (fnn_valid a) (fnn_valid b) Ha Hva Hle)
    as [E|(vb & Hb & Hvb)]; [left; exact E|].
  right. exists vb. repeat split; [exact Hb|lia|exact Hvb].
Qed.

Lemma not_infinity_ltb b c : (b <? c)%float = true -> Prim2SF b <> S754_infinity false.
Proof.
  intros Hlt E. rewrite ltb_spec, E, SFltb_infinity_l in Hlt. discriminate.
Qed.

Lemma not_infinity_leb b c vc :
  (b <=? c)%float = true -> fnn c vc -> Prim2SF b <> S754_infinity false.
Proof.
  intros Hle [Hc _] E. rewrite leb_spec, E, (SFleb_infinity_l _ vc Hc) in Hle.
  discriminate.
Qed.

Lemma fnn_pos_finite x :
  (0 <? x)%float = true -> (x <? infinity)%float = true ->
  exists v, fnn x v /\ 0 < v.
Proof.
  intros H0 Hinf.
  destruct (fnn_ltb_r _ _ _ fnn_0 H0) as [E|H]; [|exact H].
  exfalso. exact (not_infinity_ltb _ _ Hinf E).
Qed.

Lemma fnn_unit u :
  (0 <=? u)%float = true -> (u <? 1)%float = true ->
  exists vu, fnn u vu /\ vu <= (2 ^ 53 - 1) * 2 ^ 1021.
Proof.
  intros H0 H1. destruct (fnn_below u 1 _ H0 H1 fnn_1) as (vu & Hu & Hlt).
  exists vu. split; [exact Hu|]. apply Fmt_below_one; [|exact Hlt].
  eapply fnn_Fmt; eassumption.
Qed.

(** A quotient that is not infinite has the rounded value. *)
Lemma fnn_div_finite a b va vb :
  fnn a va -> fnn b vb -> 0 < vb -> (a / b <? infinity)%float = true ->
  fnn (a / b) (rnd (va * 2 ^ 1074) vb).
Proof.
  intros Ha Hb Hpos Hfin.
  destruct (Z.lt_ge_cases (rnd (va * 2 ^ 1074) vb) (2 ^ 2098)) as [H|H].
  - apply fnn_div; assumption.
  - exfalso. apply (not_infinity_ltb _ _ Hfin).
    rewrite div_spec. destruct Ha as [Ha Hva], Hb as [Hb Hvb].
    eapply SFdiv_overflow; eauto using fnn_valid.
Qed.

(** [u * (hi - lo) + lo] stays between [lo] and [hi]. *)
Lemma fnn_interpolate lo hi u vlo vhi vu :
  fnn lo vlo -> fnn hi vhi -> vlo <= vhi ->
  fnn u vu -> vu <= (2 ^ 53 - 1) * 2 ^ 1021 ->
  exists vr, fnn (u * (hi - lo) + lo)%float vr /\ vlo <= vr <= vhi.
Proof.
  intros Hlo Hhi Hle Hu Hvu.
  assert (Hvlo0 : 0 <= vlo) by (destruct Hlo; assumption).
  pose proof (fnn_sub hi lo vhi vlo Hhi Hlo Hle) as Hd.
  pose proof (fnn_lt hi vhi Hhi) as Hhi98.
  assert (Hp : rnd (vu * rnd (vhi - vlo) 1) (2 ^ 1074) <= vhi - vlo).
  { apply rnd_scaled_le; [lia|reflexivity|eapply fnn_Fmt; exact Hd|].
    destruct Hu as [_ ?]. lia. }
  pose proof (fnn_mul u (hi - lo) _ _ Hu Hd ltac:(lia)) as Hmul.
  set (vp := rnd (vu * rnd (vhi - vlo) 1) (2 ^ 1074)) in *.
  assert (Hvp : 0 <= vp) by (destruct Hmul; assumption).
  assert (Hup : rnd (vp + vlo) 1 <= vhi).
  { rewrite <- (rnd_id1 vhi (fnn_Fmt _ _ Hhi)).
    apply rnd_mono; lia. }
  assert (Hdown : vlo <= rnd (vp + vlo) 1).
  { rewrite <- (rnd_id1 vlo (fnn_Fmt _ _ Hlo)) at 1.
    apply rnd_mono; lia. }
  exists (rnd (vp + vlo) 1). split; [|lia].
  apply fnn_add; [exact Hmul|exact Hlo|lia].
Qed.

(** One coordinate of the centre: [u * (L - 2 * r) + r] for a radius at
    most half of the length [L]. *)
Lemma fnn_coordinate L r u vL vr vu :
  fnn L vL -> fnn r vr -> 2 * vr <= vL ->
  fnn u vu -> vu <= (2 ^ 53 - 1) * 2 ^ 1021 ->
  let c := (u * (L - 2 * r) + r)%float in
  (r <=? c)%float = true /\ (c <=? L - r)%float = true.
Proof.
  intros HL Hr Hhalf Hu Hvu c.
  pose proof (fnn_lt L vL HL) as HL98.
  assert (Hvr0 : 0 <= vr) by (destruct Hr; assumption).
  (* 2 * r is exact *)
  assert (H2r : fnn (2 * r)%float (2 * vr)).
  { assert (F2 : Fmt (2 * vr)).
    { destruct (fnn_Fmt _ _ Hr) as (m & j & Hj & Hm & ->).
      exists m, (j + 1). rewrite pow2_split by lia. change (2 ^ 1) with 2. lia. }
    assert (E : rnd (2 ^ 1075 * vr) (2 ^ 1074) = 2 * vr).
    { rewrite <- (rnd_id (2 * vr) (2 ^ 1074) F2) by (apply pow2_pos; lia).
      f_equal. change (2 ^ 1075) with (2 * 2 ^ 1074). ring. }
    rewrite <- E. apply fnn_mul; [exact fnn_2|exact Hr|]. rewrite E. lia. }
  pose proof (fnn_sub L (2 * r) vL (2 * vr) HL H2r Hhalf) as He.
  assert (Hp : rnd (vu * rnd (vL - 2 * vr) 1) (2 ^ 1074) <= vL - 2 * vr).
  { apply rnd_scaled_le; [lia|reflexivity|eapply fnn_Fmt; exact He|].
    destruct Hu as [_ ?]. lia. }
  pose proof (fnn_mul u (L - 2 * r) _ _ Hu He ltac:(lia)) as Hmul.
  set (vp := rnd (vu * rnd (vL - 2 * vr) 1) (2 ^ 1074)) in *.
  assert (Hvp : 0 <= vp) by (destruct Hmul; assumption).
  pose proof (fnn_sub L r vL vr HL Hr ltac:(lia)) as HLr.
  assert (Hup : rnd (vp + vr) 1 <= rnd (vL - vr) 1) by (apply rnd_mono; lia).
  assert (Hdown : vr <= rnd (vp + vr) 1).
  { rewrite <- (rnd_id1 vr (fnn_Fmt _ _ Hr)) at 1. apply rnd_mono; lia. }
  assert (Hc : fnn c (rnd (vp + vr) 1)).
  { apply fnn_add; [exact Hmul|exact Hr|].
    pose proof (fnn_lt _ _ HLr). lia. }
  split.
  - rewrite (fnn_leb _ _ _ _ Hr Hc). apply Z.leb_le. exact Hdown.
  - rewrite (fnn_leb _ _ _ _ Hc HLr). apply Z.leb_le. exact Hup.
Qed.

(** A rounded negative number is not above zero. *)
Lemma binary_round_aux_negative mx ex lx :
  SFltb (S754_zero false) (binary_round_aux prec emax true mx ex lx) = false.
Proof.
  unfold binary_round_aux.
  destruct (shr_fexp prec emax mx ex lx) as [mrs' e'].
  destruct (shr_fexp prec emax _ e' loc_Exact) as [mrs'' e''].
  destruct (shr_m mrs'') as [|p|p]; try reflexivity.
  destruct (e'' <=? emax - prec); reflexivity.
Qed.

(** A positive quotient by a positive finite number: the dividend is
    positive, finite or not. *)
Lemma SFdiv_positive x y vy :
  valid x -> SFval y = Some vy -> 0 < vy -> valid y ->
  SFltb (S754_zero false) (SFdiv prec emax x y) = true ->
  x = S754_infinity false \/ exists vx, SFval x = Some vx /\ 0 < vx.
Proof.
  intros Hvx Hy Hpos Hvy Hlt.
  destruct (nonneg_cases y vy Hvy Hy ltac:(lia)) as [(sy & -> & ->)|(my & ey & -> & Evy & _)];
    [lia|].
  destruct x as [sx|[]| |[] mx ex]; try (cbn in Hlt; discriminate).
  - left. reflexivity.
  - exfalso. cbn [SFdiv xorb] in Hlt.
    destruct (SFdiv_core_binary prec emax (Zpos mx) ex (Zpos my) ey) as [[mz ez] lz].
    rewrite binary_round_aux_negative in Hlt. discriminate.
  - right. eexists. split; [reflexivity|].
    destruct (valid_finite _ _ _ Hvx) as (He & _).
    assert (P : 0 < 2 ^ (ex + 1074)) by (apply pow2_pos; lia).
    cbn [cond_Zopp]. nia.
Qed.

Lemma SFdiv_by_infinity_not_positive x :
  SFltb (S754_zero false) (SFdiv prec emax x (S754_infinity false)) = false.
Proof. destruct x as [s|s| |s m e]; reflexivity. Qed.

Lemma SFdiv_infinity_by_finite m e :
  SFdiv prec emax (S754_infinity false) (S754_finite false m e) = S754_infinity false.
Proof. reflexivity. Qed.

Lemma fnn_div_infinity a b va :
  fnn a va -> Prim2SF b = S754_infinity false -> fnn (a / b) 0.
Proof.
  intros [Ha _] E. split; [|lia]. rewrite div_spec, E.
  eapply SFdiv_infinity. exact Ha.
Qed.

(** The radius: [u * (MAX - MIN) + MIN] with [MAX = s / lmax] and
    [MIN = s / lmin], for divisors [0 < lmax < lmin], when [MIN] has not
    underflowed to zero and [MAX] has not overflowed. *)
Lemma radius_bounds_binary64 (s lmax lmin u : float) :
  (0 <? lmax)%float = true -> (lmax <? lmin)%float = true ->
  let MAX := (s / lmax)%float in
  let MIN := (s / lmin)%float in
  let r := (u * (MAX - MIN) + MIN)%float in
  (0 <? MIN)%float = true -> (MAX <? infinity)%float = true ->
  (0 <=? u)%float = true -> (u <? 1)%float = true ->
  (MIN <=? r)%float = true /\ (r <=? MAX)%float = true /\ (0 <? r)%float = true.
Proof.
  intros Hmax Hminmax MAX MIN r HMIN HMAX Hu0 Hu1.
  assert (PP : 0 < 2 ^ 1074) by (apply pow2_pos; lia).
  assert (Flmax : exists v, fnn lmax v /\ 0 < v).
  { destruct (fnn_ltb_r _ _ _ fnn_0 Hmax) as [E|Hv]; [|exact Hv].
    exfalso. exact (not_infinity_ltb _ _ Hminmax E). }
  destruct Flmax as (vmax & Flmax & Hvmax).
  destruct (fnn_ltb_r _ _ _ Flmax Hminmax) as [Einf|(vmin & Flmin & Hvmin)].
  { (* an infinite divisor makes the lower bound zero *)
    exfalso. subst MIN. rewrite ltb_spec, div_spec, Einf in HMIN.
    change (Prim2SF 0) with (S754_zero false) in HMIN.
    rewrite SFdiv_by_infinity_not_positive in HMIN. discriminate. }
  (* the size limit is positive and finite *)
  assert (Fs : exists vs, fnn s vs /\ 0 < vs).
  { pose proof HMIN as Hpos. subst MIN. rewrite ltb_spec, div_spec in Hpos.
    change (Prim2SF 0) with (S754_zero false) in Hpos.
    destruct Flmin as [Hlmin ?].
    destruct (SFdiv_positive _ _ vmin (fnn_valid s) Hlmin ltac:(lia) (fnn_valid lmin) Hpos)
      as [E|(vs & Hs & Hvs)].
    - exfalso. subst MAX. rewrite ltb_spec, div_spec, E in HMAX.
      destruct Flmax as [Hlmax ?].
      destruct (nonneg_cases _ _ (fnn_valid lmax) Hlmax ltac:(lia))
        as [(? & _ & ?)|(m & e & E' & _)]; [lia|].
      rewrite E' in HMAX. cbn in HMAX. discriminate.
    - exists vs. split; [split; [exact Hs|lia]|exact Hvs]. }
  destruct Fs as (vs & Fs & Hvs).
  pose proof (fnn_div_finite s lmax vs vmax Fs Flmax Hvmax HMAX) as FMAX.
  fold MAX in FMAX.
  assert (Hmono : rnd (vs * 2 ^ 1074) vmin <= rnd (vs * 2 ^ 1074) vmax).
  { apply rnd_mono; try lia; nia. }
  pose proof (fnn_lt _ _ FMAX) as HMAX98.
  pose proof (fnn_div s lmin vs vmin Fs Flmin ltac:(lia) ltac:(lia)) as FMIN.
  fold MIN in FMIN.
  set (vMAX := rnd (vs * 2 ^ 1074) vmax) in *.
  set (vMIN := rnd (vs * 2 ^ 1074) vmin) in *.
  assert (HvMIN : 0 < vMIN).
  { rewrite (fnn_ltb _ _ _ _ fnn_0 FMIN) in HMIN. apply Z.ltb_lt. exact HMIN. }
  destruct (fnn_unit u Hu0 Hu1) as (vu & Fu & Hvu).
  destruct (fnn_interpolate MIN MAX u vMIN vMAX vu FMIN FMAX Hmono Fu Hvu)
    as (vr & Fr & Hvr).
  fold r in Fr.
  repeat split.
  - rewrite (fnn_leb _ _ _ _ FMIN Fr). apply Z.leb_le. lia.
  - rewrite (fnn_leb _ _ _ _ Fr FMAX). apply Z.leb_le. lia.
  - rewrite (fnn_ltb _ _ _ _ fnn_0 Fr). apply Z.ltb_lt. lia.
Qed.

(** The quotient of a size of at least one unit by a divisor of at least
    2, finite or not, is at most half the size. *)
Lemma fnn_div_half s l vs :
  fnn s vs -> 2 ^ 1074 <= vs -> (2 <=? l)%float = true ->
  exists vq, fnn (s / l) vq /\ 2 * vq <= vs /\
    (Prim2SF l = S754_infinity false /\ vq = 0 \/
     exists vl, fnn l vl /\ 2 ^ 1075 <= vl /\ vq = rnd (vs * 2 ^ 1074) vl).
Proof.
  intros Fs Hvs Hl.
  assert (PP : 0 < 2 ^ 1074) by (apply pow2_pos; lia).
  destruct (fnn_leb_r _ _ _ fnn_2 Hl) as [E|(vl & Fl & Hvl)].
  - exists 0. split; [eapply fnn_div_infinity; eassumption|]. split; [lia|].
    left. split; [exact E|reflexivity].
  - assert (Hhalf : exists h, vs = 2 * h /\ Fmt h).
    { destruct (fnn_Fmt _ _ Fs) as (m & j & Hj & Hm & E).
      destruct (Z.eq_dec j 0) as [->|Hne].
      - exfalso. change (2 ^ 0) with 1 in E.
        assert (2 ^ 53 <= 2 ^ 1074) by (apply pow2_le; lia). lia.
      - exists (m * 2 ^ (j - 1)). split.
        + rewrite E. replace j with (1 + (j - 1)) at 1 by lia.
          rewrite pow2_split by lia. change (2 ^ 1) with 2. ring.
        + exists m, (j - 1). lia. }
    destruct Hhalf as (h & Eh & Fh).
    assert (P75 : 2 ^ 1075 = 2 * 2 ^ 1074) by reflexivity.
    assert (Hle : rnd (vs * 2 ^ 1074) vl <= h).
    { rewrite <- (rnd_id h vl Fh) by lia. apply rnd_mono; try lia. nia. }
    pose proof (fnn_lt _ _ Fs) as Hs98.
    exists (rnd (vs * 2 ^ 1074) vl). split; [apply fnn_div; try assumption; lia|].
    split; [lia|]. right. exists vl. auto.
Qed.

(** What equals zero is a zero. *)
Lemma fnn_eqb_zero a : (a =? 0)%float = true -> fnn a 0.
Proof.
  rewrite FloatAxioms.eqb_spec. change (Prim2SF 0) with (S754_zero false).
  destruct (Prim2SF a) as [s|s| |s m e] eqn:E; intros H.
  - split; [rewrite E; reflexivity|lia].
  - destruct s; discriminate H.
  - discriminate H.
  - destruct s; discriminate H.
Qed.

(** Zero divided by a divisor of at least 2, finite or not, is zero. *)
Lemma fnn_div_zero s l : fnn s 0 -> (2 <=? l)%float = true -> fnn (s / l) 0.
Proof.
  intros Fs Hl.
  destruct (fnn_leb_r _ _ _ fnn_2 Hl) as [E|(vl & Fl & Hvl)].
  - eapply fnn_div_infinity; eassumption.
  - assert (P : 0 < 2 ^ 1075) by (apply pow2_pos; lia).
    assert (E : rnd (0 * 2 ^ 1074) vl = 0) by (rewrite Z.mul_0_l; apply rnd_zero; lia).
    rewrite <- E. apply fnn_div; [exact Fs|exact Fl|lia|]. rewrite E. reflexivity.
Qed.

(** The value of a side of the canvas. *)
Lemma canvas_side_value a :
  canvas_side a = true -> exists v, fnn a v /\ (v = 0 \/ 2 ^ 1074 <= v).
Proof.
  unfold canvas_side, pixel_length. intros H.
  apply orb_prop in H as [H|H].
  - exists 0. split; [exact (fnn_eqb_zero _ H)|left; reflexivity].
  - apply andb_prop in H as [H1 Hf].
    destruct (fnn_leb_r _ _ _ fnn_1 H1) as [E|(v & Fv & Hv)].
    + exfalso. exact (not_infinity_ltb _ _ Hf E).
    + exists v. split; [exact Fv|right; exact Hv].
Qed.

(** Both radius bounds, for a size limit that is zero or at least one
    unit and divisors [2 <= lmax <= lmin]: the lower does not exceed the
    upper, and the upper is at most half the size limit. *)
Lemma radius_bounds_half s lmax lmin vs :
  fnn s vs -> vs = 0 \/ 2 ^ 1074 <= vs ->
  (2 <=? lmax)%float = true -> (lmax <=? lmin)%float = true ->
  exists vMAX vMIN,
    fnn (s / lmax) vMAX /\ fnn (s / lmin) vMIN /\
    vMIN <= vMAX /\ 2 * vMAX <= vs.
Proof.
  intros Fs Hvs Hmax Hminmax.
  assert (PP : 0 < 2 ^ 1074) by (apply pow2_pos; lia).
  assert (Hlmin2 : (2 <=? lmin)%float = true).
  { destruct (fnn_leb_r _ _ _ fnn_2 Hmax) as [E|(v & Fv & Hv)].
    - rewrite leb_spec in Hminmax |- *. rewrite E in Hminmax.
      destruct (Prim2SF lmin) as [?|[]| |[] ? ?]; cbn in Hminmax |- *;
        try discriminate; reflexivity.
    - destruct (fnn_leb_r _ _ _ Fv Hminmax) as [E|(v' & Fv' & Hv')].
      + rewrite leb_spec, E. reflexivity.
      + rewrite (fnn_leb _ _ _ _ fnn_2 Fv'). apply Z.leb_le. lia. }
  destruct Hvs as [->|Hvs].
  - exists 0, 0. split; [exact (fnn_div_zero _ _ Fs Hmax)|].
    split; [exact (fnn_div_zero _ _ Fs Hlmin2)|lia].
  - destruct (fnn_div_half s lmax vs Fs Hvs Hmax) as (vMAX & FMAX & HMAXle & CMAX).
    destruct (fnn_div_half s lmin vs Fs Hvs Hlmin2) as (vMIN & FMIN & HMINle & CMIN).
    exists vMAX, vMIN. split; [exact FMAX|]. split; [exact FMIN|].
    split; [|exact HMAXle].
    destruct CMIN as [[Emin ->]|(vmin & Flmin & Hvmin & ->)].
    + destruct FMAX. lia.
    + destruct CMAX as [[Emax ->]|(vmax & Flmax & Hvmax & ->)].
      * exfalso. exact (not_infinity_leb _ _ _ Hminmax Flmin Emax).
      * rewrite (fnn_leb _ _ _ _ Flmax Flmin) in Hminmax. apply Z.leb_le in Hminmax.
        apply rnd_mono; try lia. nia.
Qed.

(** The whole record: radius and centre, on a canvas whose sides are
    zero or finite and at least one unit, with divisors
    [2 <= lmax <= lmin]. *)
Lemma bounding_box_binary64 (W H lmax lmin u0 u1 u2 : float) :
  canvas_side W = true -> canvas_side H = true ->
  (2 <=? lmax)%float = true -> (lmax <=? lmin)%float = true ->
  (0 <=? u0)%float = true -> (u0 <? 1)%float = true ->
  (0 <=? u1)%float = true -> (u1 <? 1)%float = true ->
  (0 <=? u2)%float = true -> (u2 <? 1)%float = true ->
  let s := if (W <? H)%float then W else H in
  let MAX := (s / lmax)%float in
  let MIN := (s / lmin)%float in
  let r := (u0 * (MAX - MIN) + MIN)%float in
  let x := (u1 * (W - 2 * r) + r)%float in
  let y := (u2 * (H - 2 * r) + r)%float in
  (r <=? x)%float = true /\ (x <=? W - r)%float = true /\
  (r <=? y)%float = true /\ (y <=? H - r)%float = true.
Proof.
  intros HW HH Hmax Hminmax Hu00 Hu01 Hu10 Hu11 Hu20 Hu21 s MAX MIN r x y.
  destruct (canvas_side_value _ HW) as (vW & FW & HvW).
  destruct (canvas_side_value _ HH) as (vH & FH & HvH).
  assert (HW0 : 0 <= vW) by (destruct FW; assumption).
  assert (HH0 : 0 <= vH) by (destruct FH; assumption).
  assert (PP : 0 < 2 ^ 1074) by (apply pow2_pos; lia).
  assert (Fs : exists vs, fnn s vs /\ (vs = 0 \/ 2 ^ 1074 <= vs) /\
                          vs <= vW /\ vs <= vH).
  { subst s. destruct (W <? H)%float eqn:E.
    - rewrite (fnn_ltb _ _ _ _ FW FH) in E. apply Z.ltb_lt in E.
      exists vW. split; [exact FW|]. split; [exact HvW|lia].
    - rewrite (fnn_ltb _ _ _ _ FW FH) in E. apply Z.ltb_ge in E.
      exists vH. split; [exact FH|]. split; [exact HvH|lia]. }
  destruct Fs as (vs & Fs & Hvs & HsW & HsH).
  destruct (radius_bounds_half s lmax lmin vs Fs Hvs Hmax Hminmax)
    as (vMAX & vMIN & FMAX & FMIN & Hmono & Hhalf).
  fold MAX in FMAX. fold MIN in FMIN.
  destruct (fnn_unit u0 Hu00 Hu01) as (vu0 & Fu0 & Hvu0).
  destruct (fnn_unit u1 Hu10 Hu11) as (vu1 & Fu1 & Hvu1).
  destruct (fnn_unit u2 Hu20 Hu21) as (vu2 & Fu2 & Hvu2).
  destruct (fnn_interpolate MIN MAX u0 vMIN vMAX vu0 FMIN FMAX Hmono Fu0 Hvu0)
    as (vr & Fr & Hvr).
  fold r in Fr.
  destruct (fnn_coordinate W r u1 vW vr vu1 FW Fr ltac:(lia) Fu1 Hvu1) as [Hx1 Hx2].
  destruct (fnn_coordinate H r u2 vH vr vu2 FH Fr ltac:(lia) Fu2 Hvu2) as [Hy1 Hy2].
  auto.
Qed.

End Binary64.

(** ** createAttribute *)

Section createAttribute_products.
Local Open Scope Z_scope.

(** The integers up to [2^53] are binary64 numbers. *)
Lemma Fmt_integer p : 0 <= p <= 2 ^ 53 -> Fmt (p * 2 ^ 1074).
Proof.
  intros Hp. destruct (Z.eq_dec p (2 ^ 53)) as [->|Hne].
  - exists (2 ^ 52), 1075. split; [lia|]. split; [lia|reflexivity].
  - exists p, 1074. split; [lia|]. split; [lia|reflexivity].
Qed.

Lemma integer_value_nonneg x n : integer_value x n -> 0 <= n.
Proof.
  intros [_ H]. assert (0 < 2 ^ 1074) by (apply pow2_pos; lia). nia.
Qed.

Lemma integer_value_inj x n m : integer_value x n -> integer_value x m -> n = m.
Proof.
  intros Hn Hm. pose proof (fnn_inj _ _ _ Hn Hm) as E.
  assert (0 < 2 ^ 1074) by (apply pow2_pos; lia). nia.
Qed.

(** A product of two integers that does not exceed [2^53] is computed
    exactly. *)
Lemma integer_product a b A B :
  integer_value a A -> integer_value b B -> A * B <= 2 ^ 53 ->
  integer_value (a * b)%float (A * B).
Proof.
  intros Ha Hb Hle.
  pose proof (integer_value_nonneg _ _ Ha) as HA.
  pose proof (integer_value_nonneg _ _ Hb) as HB.
  assert (PP : 0 < 2 ^ 1074) by (apply pow2_pos; lia).
  assert (HAB : 0 <= A * B) by nia.
  assert (E : rnd (A * 2 ^ 1074 * (B * 2 ^ 1074)) (2 ^ 1074) = A * B * 2 ^ 1074).
  { rewrite <- (rnd_id (A * B * 2 ^ 1074) (2 ^ 1074)) by (try apply Fmt_integer; lia).
    f_equal. ring. }
  unfold integer_value in *. rewrite <- E.
  apply fnn_mul; [exact Ha|exact Hb|]. rewrite E.
  change (2 ^ 2098) with (2 ^ 1024 * 2 ^ 1074).
  assert (2 ^ 53 < 2 ^ 1024) by (apply Z.pow_lt_mono_r; lia). nia.
Qed.
End createAttribute_products.

(** C7, as stated, fails: the products are binary64 products, and above
    [2^53] they are rounded. For the integers 9007199254740991 and
    9007199254740989 with a component size of 3 the descriptor has the
    stride 27021597764222972 and the offset 27021597764222968, where the
    products are 27021597764222973 and 27021597764222967. *)
Lemma createAttribute_offset_stride_counterexample :
  let a := createAttribute "vertPosition" 2 9007199254740991 GL.FLOAT
             9007199254740989 3 false in
  integer_value 9007199254740991 9007199254740991 /\
  integer_value 9007199254740989 9007199254740989 /\
  integer_value 3 3 /\
  attr_stride a = 27021597764222972%float /\
  integer_value (attr_stride a) 27021597764222972 /\
  ~ integer_value (attr_stride a) (9007199254740991 * 3) /\
  attr_offset a = 27021597764222968%float /\
  integer_value (attr_offset a) 27021597764222968 /\
  ~ integer_value (attr_offset a) (9007199254740989 * 3).
Proof.
  assert (Hstride : integer_value 27021597764222972 27021597764222972)
    by (split; [vm_compute; reflexivity|lia]).
  assert (Hoffset : integer_value 27021597764222968 27021597764222968)
    by (split; [vm_compute; reflexivity|lia]).
  cbv zeta. repeat split; try (vm_compute; reflexivity); try lia.
  - intros H. pose proof (integer_value_inj _ _ _ Hstride H). lia.
  - intros H. pose proof (integer_value_inj _ _ _ Hoffset H). lia.
Qed.

(** C7, amended: for non-negative integers whose products
    [numVertex * typeSize] and [offset * typeSize] do not exceed [2^53],
    the descriptor [createAttribute] returns has exactly
    [offset = offset * typeSize] and [stride = numVertex * typeSize]; the
    function is total and touches no state, and the other fields are the
    arguments. *)
Theorem createAttribute_offset_stride :
  forall name numElements numVertex type offset typeSize normalized
         (vertex position size : Z),
    integer_value numVertex vertex ->
    integer_value offset position ->
    integer_value typeSize size ->
    vertex * size <= 2 ^ 53 ->
    position * size <= 2 ^ 53 ->
    let a := createAttribute name numElements numVertex type offset typeSize
               normalized in
    integer_value (attr_offset a) (position * size) /\
    integer_value (attr_stride a) (vertex * size) /\
    a = {| attr_name := name; attr_size := numElements;
           attr_stride := (numVertex * typeSize)%float;
           attr_offset := (offset * typeSize)%float;
           attr_type := type; attr_normalized := normalized |}.
Proof.
  intros name n v ty off ts norm vertex position size Hv Ho Hs Hvs Hos a.
  subst a. cbn [createAttribute attr_offset attr_stride].
  split; [apply integer_product; assumption|].
  split; [apply integer_product; assumption|reflexivity].
Qed.

(** The second attribute of [app.js]: offset 2 in a vertex of five floats
    is byte 8 of 20. *)
Lemma createAttribute_offset_stride_witness :
  integer_value (attr_offset (createAttribute "vertColor" 3 5 GL.FLOAT 2 4 false)) 8 /\
  integer_value (attr_stride (createAttribute "vertColor" 3 5 GL.FLOAT 2 4 false)) 20.
Proof.
  destruct (createAttribute_offset_stride "vertColor" 3 5 GL.FLOAT 2 4 false 5 2 4)
    as (Hoffset & Hstride & _).
  - split; [vm_compute; reflexivity|lia].
  - split; [vm_compute; reflexivity|lia].
  - split; [vm_compute; reflexivity|lia].
  - lia.
  - lia.
  - split; [exact Hoffset|exact Hstride].
Defined.

(** C8, as stated, fails: the builder validates nothing. Five components
    at offset 3 of a two-component vertex give size 5, offset 12 and
    stride 8. *)
Lemma createAttribute_invariant_counterexample :
  ~ descriptor_invariant 4 (createAttribute "vertColor" 5 2 GL.FLOAT 3 4 false).
Proof.
  intros (size & offset & stride & Hsize & _ & _ & Hcount & _).
  assert (H5 : integer_value 5 5) by (split; [vm_compute; reflexivity|lia]).
  cbn [createAttribute attr_size] in Hsize.
  pose proof (integer_value_inj _ _ _ H5 Hsize). lia.
Qed.

(** Nor is it enough that the caller's numbers fit: above [2^53] the two
    products round. One component at offset 6004799503160669 of a vertex
    of 6004799503160670 components of size 3 gives an offset and a stride
    that are both 18014398509482008. *)
Lemma createAttribute_invariant_rounded_products :
  let a := createAttribute "vertPosition" 1 6004799503160670 GL.FLOAT
             6004799503160669 3 false in
  integer_value 6004799503160670 6004799503160670 /\
  integer_value 6004799503160669 6004799503160669 /\
  6004799503160669 + 1 <= 6004799503160670 /\
  attr_offset a = attr_stride a /\
  ~ descriptor_invariant 3 a.
Proof.
  assert (H8 : integer_value 18014398509482008 18014398509482008)
    by (split; [vm_compute; reflexivity|lia]).
  assert (H1 : integer_value 1 1) by (split; [vm_compute; reflexivity|lia]).
  cbv zeta. repeat split; try (vm_compute; reflexivity); try lia.
  intros (size & offset & stride & Hsize & Hoffset & Hstride & _ & Hfit).
  cbn [createAttribute attr_size] in Hsize.
  pose proof (integer_value_inj _ _ _ H1 Hsize) as <-.
  assert (offset = 18014398509482008) as ->.
  { symmetry. apply (integer_value_inj _ _ _ H8). exact Hoffset. }
  assert (stride = 18014398509482008) as ->.
  { symmetry. apply (integer_value_inj _ _ _ H8). exact Hstride. }
  lia.
Qed.

(** C8, amended: the descriptor satisfies the invariant when the caller
    passes non-negative integers, a component count in 1..4 that fits in
    the vertex after the offset, and a vertex of at most [2^53] bytes. *)
Theorem createAttribute_invariant :
  forall name numElements numVertex type offset typeSize normalized
         (count vertex position size : Z),
    integer_value numElements count ->
    integer_value numVertex vertex ->
    integer_value offset position ->
    integer_value typeSize size ->
    1 <= count <= 4 ->
    position + count <= vertex ->
    vertex * size <= 2 ^ 53 ->
    descriptor_invariant size
      (createAttribute name numElements numVertex type offset typeSize normalized).
Proof.
  intros name n v ty off ts norm count vertex position size Hn Hv Ho Hs Hcount
         Hfit Hbound.
  pose proof (integer_value_nonneg _ _ Ho) as Hposition.
  pose proof (integer_value_nonneg _ _ Hs) as Hsize.
  exists count, (position * size), (vertex * size).
  cbn [createAttribute attr_size attr_offset attr_stride].
  split; [exact Hn|].
  split; [apply integer_product; [assumption|assumption|nia]|].
  split; [apply integer_product; assumption|].
  split; [lia|nia].
Qed.

(** The second attribute of [app.js]: three colour components at offset 2
    of a five-component vertex of floats. *)
Lemma createAttribute_invariant_witness :
  descriptor_invariant 4 (createAttribute "vertColor" 3 5 GL.FLOAT 2 4 false).
Proof.
  apply (createAttribute_invariant "vertColor" 3 5 GL.FLOAT 2 4 false 3 5 2 4).
  - split; [vm_compute; reflexivity|lia].
  - split; [vm_compute; reflexivity|lia].
  - split; [vm_compute; reflexivity|lia].
  - split; [vm_compute; reflexivity|lia].
  - lia.
  - lia.
  - lia.
Defined.

(** ** generateCircleUniformData: the generated records *)

Section Generated_records.
Variable Math_random : nat -> float.
Variable radiusLimits : RadiusLimits.
Variable canvasDimensions : CanvasDimensions.

(** The radius of a record drawn under the documented use of the limits. *)
Lemma draw_radius_in_range draws :
  unit_interval (Math_random draws) = true ->
  (0 <? rl_max radiusLimits)%float = true ->
  (rl_max radiusLimits <? rl_min radiusLimits)%float = true ->
  (0 <? MIN_RADIUS radiusLimits canvasDimensions)%float = true ->
  (MAX_RADIUS radiusLimits canvasDimensions <? infinity)%float = true ->
  radius_in_range radiusLimits canvasDimensions
    (draw_circle Math_random radiusLimits canvasDimensions draws) = true.
Proof.
  unfold unit_interval. intros Hu Hmax Hminmax HMIN HMAX.
  apply andb_prop in Hu as [Hu0 Hu1].
  destruct (radius_bounds_binary64 (sizeLimit canvasDimensions)
              (rl_max radiusLimits) (rl_min radiusLimits) (Math_random draws)
              Hmax Hminmax HMIN HMAX Hu0 Hu1) as (Hlo & Hhi & Hpos).
  unfold radius_in_range. cbn [draw_circle c_r].
  unfold MAX_RADIUS, MIN_RADIUS in *. rewrite Hlo, Hhi, Hpos. reflexivity.
Qed.

(** The centre of a record drawn with divisors of at least 2. *)
Lemma draw_bounding_box draws :
  unit_interval (Math_random draws) = true ->
  unit_interval (Math_random (draws + 1)%nat) = true ->
  unit_interval (Math_random (draws + 2)%nat) = true ->
  canvas_side (cd_width canvasDimensions) = true ->
  canvas_side (cd_height canvasDimensions) = true ->
  (2 <=? rl_max radiusLimits)%float = true ->
  (rl_max radiusLimits <=? rl_min radiusLimits)%float = true ->
  bounding_box_in_canvas canvasDimensions
    (draw_circle Math_random radiusLimits canvasDimensions draws) = true.
Proof.
  unfold unit_interval. intros Hu0 Hu1 Hu2 HW HH Hmax Hminmax.
  apply andb_prop in Hu0 as [Hu00 Hu01]. apply andb_prop in Hu1 as [Hu10 Hu11].
  apply andb_prop in Hu2 as [Hu20 Hu21].
  destruct (bounding_box_binary64 (cd_width canvasDimensions)
              (cd_height canvasDimensions) (rl_max radiusLimits)
              (rl_min radiusLimits) (Math_random draws)
              (Math_random (draws + 1)%nat) (Math_random (draws + 2)%nat)
              HW HH Hmax Hminmax Hu00 Hu01 Hu10 Hu11 Hu20 Hu21)
    as (Hx1 & Hx2 & Hy1 & Hy2).
  unfold bounding_box_in_canvas. cbn [draw_circle c_r c_x c_y].
  unfold MAX_RADIUS, MIN_RADIUS, sizeLimit in *.
  rewrite Hx1, Hx2, Hy1, Hy2. reflexivity.
Qed.

End Generated_records.





(** Below one pixel the bound can fail by rounding alone: on a canvas of
    3 * 2^-1074 pixels with both divisors 2, half the size rounds up. *)
Lemma bounding_box_subnormal_canvas :
  bounding_box_in_canvas
    {| cd_width := 0x1.8p-1073%float; cd_height := 0x1.8p-1073%float |}
    (draw_circle (fun _ => 0.75%float) {| rl_min := 2%float; rl_max := 2%float |}
       {| cd_width := 0x1.8p-1073%float; cd_height := 0x1.8p-1073%float |} 0)
  = false.
Proof. vm_compute. reflexivity. Qed.


